(** * Client-side orchestration of the AI log platform front end

    A shallow embedding of the three React components that own long-running
    operations:

    - [LogUploader] (src/frontend/src/components/LogUploader.jsx): the upload
      handler and the polling effect that tracks an ingestion job;
    - [AskAI] (src/frontend/src/components/AskAI.jsx): the streaming query
      and its token / final-result callbacks;
    - [App] and [LogTable] (src/frontend/src/App.jsx,
      src/frontend/src/components/LogTable.jsx): filter and page state, the
      log fetch and the background analytics refresh.

    React state is a record; every handler is a function on that record.
    Whatever lives outside the component (interval timers, requests that are
    in flight, the console, callbacks of the parent) is kept in the same
    record as explicit environment, and every call that leaves the component
    is appended to an effect log.  An [await] splits a handler in two events:
    the part that issues the request and the part that runs when the reply
    arrives, so that other events can come in between as they can in the
    browser.  The state updates of one handler, the re-render they cause and
    the effects of that render are one step of the model: no timer or reply
    is handled between them. *)

From Stdlib Require Import Ascii QArith_base.
From stdpp Require Import gmap strings list pretty.

(** ** Shared helpers *)

(** The number of entries of a log that satisfy a boolean test. *)
Fixpoint count {A : Type} (p : A → bool) (l : list A) : nat :=
  match l with
  | [] => 0
  | x :: l' => (if p x then 1 else 0) + count p l'
  end.

(** JavaScript truthiness of a string-or-null value: [null], [undefined] and
    the empty string are falsy. *)
Definition truthy (o : option string) : option string :=
  match o with
  | Some s => if decide (s = "") then None else Some s
  | None => None
  end.

(** [x || d] for a string-or-null [x]. *)
Definition or_default (o : option string) (d : string) : string :=
  match truthy o with
  | Some s => s
  | None => d
  end.

(** * LogUploader: upload and job polling *)

(** [uploadLog] and [getJob] are imported from api/client; the component
    sees them as requests that settle later, with a value or an exception.
    What they settle with is an input of the model: the events [UploadDone],
    [UploadFail], [UploadProgress] and [PollReply]. *)

Module LogUploader.

(** The five literals that [setStatus] is ever called with. *)
Inductive ui_status := Queued | Uploading | Processing | Completed | Failed.

#[global] Instance ui_status_eq_dec : EqDecision ui_status.
Proof. solve_decision. Defined.

(** The job record returned by [getJob].  [job_status] is the backend's
    string, compared case-sensitively by the component; the two other fields
    may be missing from the reply.  Counts are printed in plain decimal, as
    JavaScript does for the integers a counter can hold. *)
Record job := Job {
  job_status : string;
  processed_count : option N;
  job_error : option string
}.

(** What [await getJob(jobId)] produces: a record, or an exception (a failed
    request, or a reply that is not a record). *)
Inductive poll_result :=
| PollOk (j : job)
| PollErr (e : string).

(** The variables captured by the interval callback when the effect runs. *)
Record closure := Closure {
  c_jobId : string;
  c_onComplete : option nat
}.

(** Calls that leave the component. *)
Inductive effect :=
| UploadLog (f : string)
| GetJob (jobId : string)
| CallOnComplete (cb : nat)
| ConsoleError (e : string)
| SetInterval (id : positive) (delay : N)
| ClearInterval (id : positive)
| ShowText (s : string).

(** The component's [useState] cells. *)
Record view := View {
  file : option string;
  status : ui_status;
  progress : N;
  jobId : option string;
  displayText : string
}.

(** The component together with its environment: the [onComplete] prop (a
    callback is identified by a number, a fresh one for each function object
    the parent passes), [intervalRef.current], the intervals that are armed
    with what their callback captured, the timer id the browser hands out
    next, the [getJob] requests and uploads still in flight, and the effect
    log. *)
Record tracker := Tracker {
  ui : view;
  onComplete : option nat;
  intervalRef : option positive;
  timers : gmap positive closure;
  next_timer : positive;
  polls : list closure;
  uploads : nat;
  trace : list effect
}.

Definition with_ui (f : view → view) (t : tracker) : tracker :=
  Tracker (f (ui t)) (onComplete t) (intervalRef t) (timers t) (next_timer t)
          (polls t) (uploads t) (trace t).

Definition emit (e : effect) (t : tracker) : tracker :=
  Tracker (ui t) (onComplete t) (intervalRef t) (timers t) (next_timer t)
          (polls t) (uploads t) (trace t ++ [e]).

Definition setStatus (s : ui_status) (v : view) : view :=
  View (file v) s (progress v) (jobId v) (displayText v).
Definition setProgress (p : N) (v : view) : view :=
  View (file v) (status v) p (jobId v) (displayText v).
Definition setJobId (j : option string) (v : view) : view :=
  View (file v) (status v) (progress v) j (displayText v).
Definition setFile (f : option string) (v : view) : view :=
  View f (status v) (progress v) (jobId v) (displayText v).

(** [setDisplayText] also records the text in the log: it is the message the
    user is shown. *)
Definition setDisplayText (s : string) (t : tracker) : tracker :=
  emit (ShowText s)
       (with_ui (λ v, View (file v) (status v) (progress v) (jobId v) s) t).

(** [clearInterval(intervalRef.current)]: clearing [null] or an id that is
    no longer armed does nothing. *)
Definition clearInterval_ref (t : tracker) : tracker :=
  match intervalRef t with
  | Some id =>
      Tracker (ui t) (onComplete t) (intervalRef t) (delete id (timers t))
              (next_timer t) (polls t) (uploads t)
              (trace t ++ [ClearInterval id])
  | None => t
  end.

(** The period of the poll interval, in milliseconds. *)
Definition POLL_MS : N := 2000.

(** The body of the effect: arm an interval when a job is being processed. *)
Definition effect_body (t : tracker) : tracker :=
  match status (ui t), truthy (jobId (ui t)) with
  | Processing, Some j =>
      let id := next_timer t in
      Tracker (ui t) (onComplete t) (Some id)
              (<[id := Closure j (onComplete t)]> (timers t))
              (Pos.succ id) (polls t) (uploads t)
              (trace t ++ [SetInterval id POLL_MS])
  | _, _ => t
  end.

(** The cleanup function returned by the effect. *)
Definition effect_cleanup (t : tracker) : tracker :=
  match intervalRef t with
  | Some _ => clearInterval_ref t
  | None => t
  end.

(** The dependency array [[status, jobId, onComplete]]. *)
Definition deps (t : tracker) : ui_status * option string * option nat :=
  (status (ui t), jobId (ui t), onComplete t).

(** Re-render after a handler: when a dependency differs from its value at
    the previous render, the cleanup runs and then the effect. *)
Definition render (old : ui_status * option string * option nat)
    (t : tracker) : tracker :=
  if decide (deps t = old) then t else effect_body (effect_cleanup t).

(** [handleFileSelect] and [handleDrop]: [f] is [files[0]], which is
    undefined when the list is empty. *)
Definition handleFileSelect (f : option string) (t : tracker) : tracker :=
  match f with
  | Some f =>
      setDisplayText ""
        (with_ui (λ v, setJobId None (setProgress 0 (setStatus Queued
                         (setFile (Some f) v)))) t)
  | None => t
  end.

Definition handleDrop (f : option string) (t : tracker) : tracker :=
  match f with
  | Some f =>
      setDisplayText ""
        (with_ui (λ v, setJobId None (setProgress 0 (setStatus Queued
                         (setFile (Some f) v)))) t)
  | None => t
  end.

(** [handleUpload] up to its [await uploadLog(...)]. *)
Definition handleUpload (t : tracker) : tracker :=
  match file (ui t) with
  | None => t
  | Some f =>
      let t1 := setDisplayText ""
                  (with_ui (λ v, setJobId None (setProgress 0
                                   (setStatus Uploading v))) t) in
      emit (UploadLog f)
        (Tracker (ui t1) (onComplete t1) (intervalRef t1) (timers t1)
                 (next_timer t1) (polls t1) (S (uploads t1)) (trace t1))
  end.

Definition upload_settled (t : tracker) : tracker :=
  Tracker (ui t) (onComplete t) (intervalRef t) (timers t) (next_timer t)
          (polls t) (pred (uploads t)) (trace t).

(** The progress callback handed to [uploadLog]. *)
Definition upload_progress (pct : N) (t : tracker) : tracker :=
  with_ui (setProgress pct) t.

(** [handleUpload] after the [await]: the upload returned [result]. *)
Definition upload_resolved (job_id : option string) (t : tracker) : tracker :=
  setDisplayText "Processing..."
    (with_ui (λ v, setStatus Processing (setJobId job_id v))
             (upload_settled t)).

(** [handleUpload]'s [catch]. *)
Definition upload_rejected (msg : string) (t : tracker) : tracker :=
  setDisplayText ("Upload failed: " +:+ msg)
    (with_ui (setStatus Failed) (upload_settled t)).

(** The interval callback up to its [await getJob(jobId)]. *)
Definition tick (id : positive) (t : tracker) : tracker :=
  match timers t !! id with
  | Some c =>
      emit (GetJob (c_jobId c))
        (Tracker (ui t) (onComplete t) (intervalRef t) (timers t)
                 (next_timer t) (polls t ++ [c]) (uploads t) (trace t))
  | None => t
  end.

Definition call_onComplete (c : closure) (t : tracker) : tracker :=
  match c_onComplete c with
  | Some cb => emit (CallOnComplete cb) t
  | None => t
  end.

(** The text of the two terminal messages. *)
Definition done_text (j : job) : string :=
  "Done! " +:+ pretty (default 0%N (processed_count j)) +:+ " logs processed.".

Definition error_text (j : job) : string :=
  "Error: " +:+ or_default (job_error j) "Unknown error".

(** The interval callback after the [await]: what it does with the reply,
    with the variables [c] it captured. *)
Definition on_reply (c : closure) (r : poll_result) (t : tracker) : tracker :=
  match r with
  | PollOk j =>
      if decide (job_status j = "completed") then
        call_onComplete c
          (clearInterval_ref
             (setDisplayText (done_text j)
                (with_ui (λ v, setProgress 100 (setStatus Completed v)) t)))
      else if decide (job_status j = "failed") then
        clearInterval_ref
          (setDisplayText (error_text j) (with_ui (setStatus Failed) t))
      else t
  | PollErr e => emit (ConsoleError e) t
  end.

(** The reply to the [k]-th request in flight arrives. *)
Definition poll_reply (k : nat) (r : poll_result) (t : tracker) : tracker :=
  match polls t !! k with
  | Some c =>
      on_reply c r
        (Tracker (ui t) (onComplete t) (intervalRef t) (timers t)
                 (next_timer t) (delete k (polls t)) (uploads t) (trace t))
  | None => t
  end.

(** The parent re-renders and passes [cb] as [onComplete]. *)
Definition set_onComplete (cb : option nat) (t : tracker) : tracker :=
  Tracker (ui t) cb (intervalRef t) (timers t) (next_timer t)
          (polls t) (uploads t) (trace t).

(** Everything that can happen to the mounted component. *)
Inductive event :=
| FileSelect (f : option string)
| Drop (f : option string)
| ClickUpload
| UploadProgress (pct : N)
| UploadDone (job_id : option string)
| UploadFail (msg : string)
| Tick (id : positive)
| PollReply (k : nat) (r : poll_result)
| Rerender (cb : option nat).

(** The handler an event reaches.  The guards are the [disabled] attributes
    of the JSX: the file input is disabled while uploading or processing,
    the upload button unless a file is chosen and the status is Queued; the
    drop zone is never disabled.  An upload can only settle when one is in
    flight. *)
Definition handle (e : event) (t : tracker) : tracker :=
  match e with
  | FileSelect f =>
      match status (ui t) with
      | Uploading | Processing => t
      | _ => handleFileSelect f t
      end
  | Drop f => handleDrop f t
  | ClickUpload =>
      match file (ui t), status (ui t) with
      | Some _, Queued => handleUpload t
      | _, _ => t
      end
  | UploadProgress pct =>
      match uploads t with O => t | S _ => upload_progress pct t end
  | UploadDone job_id =>
      match uploads t with O => t | S _ => upload_resolved job_id t end
  | UploadFail msg =>
      match uploads t with O => t | S _ => upload_rejected msg t end
  | Tick id => tick id t
  | PollReply k r => poll_reply k r t
  | Rerender cb => set_onComplete cb t
  end.

(** One event with the render and the effect it leads to run at once, as
    happens when nothing else is due in between; [advance] below takes the
    three moments apart. *)
Definition step (e : event) (t : tracker) : tracker :=
  render (deps t) (handle e t).

Definition run (es : list event) (t : tracker) : tracker :=
  foldl (λ acc e, step e acc) t es.

(** The component as mounted with [onComplete = cb]: the effect runs once,
    and with the status Queued it arms nothing. *)
Definition mount (cb : option nat) : tracker :=
  effect_body
    (Tracker (View None Queued 0 None "") cb None ∅ 1%positive [] 0 []).

(** Unmounting runs the cleanup. *)
Definition unmount (t : tracker) : tracker := effect_cleanup t.

(** A file that is dropped on the drop zone. *)
Definition is_file_drop (e : event) : bool :=
  match e with Drop (Some _) => true | _ => false end.

(** Processing without a job id that can be polled, with no request and no
    upload in flight. *)
Definition stalled (t : tracker) : Prop :=
  status (ui t) = Processing ∧ truthy (jobId (ui t)) = None ∧
  timers t = ∅ ∧ polls t = [] ∧ uploads t = 0.

(** Log tests. *)
Definition is_GetJob (e : effect) : bool :=
  match e with GetJob _ => true | _ => false end.
Definition is_CallOnComplete (e : effect) : bool :=
  match e with CallOnComplete _ => true | _ => false end.

(** A tracker that polls job [j] on interval [id], with no request in
    flight. *)
Definition polling (j : string) (cb : option nat) (id : positive)
    (t : tracker) : Prop :=
  status (ui t) = Processing ∧ jobId (ui t) = Some j ∧ j ≠ "" ∧
  onComplete t = cb ∧ intervalRef t = Some id ∧
  timers t = {[ id := Closure j cb ]} ∧ polls t = [].

(** A reply that ends the job: the two statuses the callback reacts to. *)
Definition terminal (r : poll_result) : bool :=
  match r with
  | PollOk j =>
      bool_decide (job_status j = "completed")
      || bool_decide (job_status j = "failed")
  | PollErr _ => false
  end.

(** One poll answered before the next tick: the current interval fires and
    the reply to its request arrives. *)
Definition poll_once (r : poll_result) (t : tracker) : tracker :=
  match intervalRef t with
  | Some id => step (PollReply 0 r) (step (Tick id) t)
  | None => t
  end.

(** The tracker driven by a sequence of job statuses, one per tick. *)
Definition poll_all (rs : list poll_result) (t : tracker) : tracker :=
  foldl (λ acc r, poll_once r acc) t rs.

(** What a reply that does not end the job leaves in the log. *)
Definition pending_log (r : poll_result) : list effect :=
  match r with
  | PollErr e => [ConsoleError e]
  | PollOk _ => []
  end.

Definition logged (es : list effect) (t : tracker) : tracker :=
  Tracker (ui t) (onComplete t) (intervalRef t) (timers t) (next_timer t)
          (polls t) (uploads t) (trace t ++ es).

(** The events that reach a tracker while its job goes on: ticks, replies
    that do not end the job, and re-renders in which the parent passes a
    callback. *)
Definition quiet (e : event) : bool :=
  match e with
  | Tick _ => true
  | PollReply _ r => negb (terminal r)
  | Rerender (Some _) => true
  | _ => false
  end.

(** A tracker that polls job [j], with any number of requests in flight:
    one interval is armed, and every request in flight was issued for [j] by
    a callback that holds an [onComplete]. *)
Definition in_flight (j : string) (t : tracker) : Prop :=
  status (ui t) = Processing ∧ jobId (ui t) = Some j ∧ j ≠ "" ∧
  (∃ id cb, onComplete t = Some cb ∧ intervalRef t = Some id ∧
            timers t = {[ id := Closure j (Some cb) ]}) ∧
  Forall (λ c, c_jobId c = j ∧ is_Some (c_onComplete c)) (polls t).

(** What a run adds to the log, and the messages and callback invocations
    in it. *)
Definition added (t t' : tracker) : list effect :=
  drop (length (trace t)) (trace t').

Definition shown (es : list effect) : list string :=
  omap (λ e, match e with ShowText s => Some s | _ => None end) es.

Definition completions (es : list effect) : list nat :=
  omap (λ e, match e with CallOnComplete cb => Some cb | _ => None end) es.

(** Every armed interval is the one in [intervalRef] and belongs to the job
    on display. *)
Definition current_only (t : tracker) : Prop :=
  ∀ id c, timers t !! id = Some c →
    intervalRef t = Some id ∧ status (ui t) = Processing ∧
    jobId (ui t) = Some (c_jobId c) ∧ c_jobId c ≠ "" ∧
    c_onComplete c = onComplete t.

(** [keeps t' t]: from [t] to [t'] no interval was armed and [intervalRef]
    did not move. *)
Definition keeps (t' t : tracker) : Prop :=
  intervalRef t' = intervalRef t ∧
  ∀ id c, timers t' !! id = Some c → timers t !! id = Some c.

(** A tracker that has just begun to poll job abc123 for a parent whose
    callback is number 7. *)
Definition started : tracker :=
  run [FileSelect (Some "app.log"); ClickUpload; UploadDone (Some "abc123")]
      (mount (Some 7)).

(** The same tracker after a tick whose request is still in flight, a
    dropped file and a second upload that returned job def456. *)
Definition superseded : tracker :=
  run [Tick 1; Drop (Some "db.log"); ClickUpload; UploadDone (Some "def456")]
      started.

(** ** When React runs the effect

    [step] lets the render and the effect follow the handler at once.  React
    commits the render of a state that was set after an [await] in a later
    task, and runs the effect of a committed render later still, after the
    effects of the render before it; timer callbacks and replies run in
    between.  Here the three moments are events of their own.  [painted]
    and [painted_cb] are the state cells and the [onComplete] prop as the
    render committed last saw them: the page shows them, and the handlers
    the page calls are closures of that render.  [awaiting] holds the
    dependencies of a committed render whose effect has not run yet. *)
Record scheduled := Scheduled {
  cur : tracker;
  painted : view;
  painted_cb : option nat;
  awaiting : option (ui_status * option string * option nat)
}.

(** The dependency array of the render committed last. *)
Definition rendered (s : scheduled) : ui_status * option string * option nat :=
  (status (painted s), jobId (painted s), painted_cb s).

(** [handleUpload] as the closure of a render in which [file] was [fl]. *)
Definition handleUpload_of (fl : option string) (t : tracker) : tracker :=
  match fl with
  | None => t
  | Some f =>
      let t1 := setDisplayText ""
                  (with_ui (λ v, setJobId None (setProgress 0
                                   (setStatus Uploading v))) t) in
      emit (UploadLog f)
        (Tracker (ui t1) (onComplete t1) (intervalRef t1) (timers t1)
                 (next_timer t1) (polls t1) (S (uploads t1)) (trace t1))
  end.

(** The handler an event reaches while the page shows the render [v]: the
    [disabled] attributes and the file that is uploaded are those of that
    render; the setters act on the current state. *)
Definition dispatch (v : view) (e : event) (t : tracker) : tracker :=
  match e with
  | FileSelect f =>
      match status v with
      | Uploading | Processing => t
      | _ => handleFileSelect f t
      end
  | ClickUpload =>
      match file v, status v with
      | Some _, Queued => handleUpload_of (file v) t
      | _, _ => t
      end
  | _ => handle e t
  end.

(** The body of the effect of the render with the dependencies [d]: what it
    tests and what its interval callback captures are the values of that
    render. *)
Definition effect_body_of (d : ui_status * option string * option nat)
    (t : tracker) : tracker :=
  match d with
  | (Processing, jid, cb) =>
      match truthy jid with
      | Some j =>
          let id := next_timer t in
          Tracker (ui t) (onComplete t) (Some id)
                  (<[id := Closure j cb]> (timers t))
                  (Pos.succ id) (polls t) (uploads t)
                  (trace t ++ [SetInterval id POLL_MS])
      | None => t
      end
  | _ => t
  end.

(** The effect that is due runs: the cleanup of the previous one, which
    reads [intervalRef.current] as it is now, then the body. *)
Definition flush (s : scheduled) : scheduled :=
  match awaiting s with
  | Some d =>
      Scheduled (effect_body_of d (effect_cleanup (cur s)))
                (painted s) (painted_cb s) None
  | None => s
  end.

(** React renders the current state; it runs an effect that is still due
    first.  The effect of the new render is due when a dependency differs
    from the render before. *)
Definition commit (s : scheduled) : scheduled :=
  let s1 := flush s in
  Scheduled (cur s1) (ui (cur s1)) (onComplete (cur s1))
            (if decide (deps (cur s1) = rendered s1) then None
             else Some (deps (cur s1))).

Inductive moment :=
| Handler (e : event)
| Commit
| Effects.

Definition advance (m : moment) (s : scheduled) : scheduled :=
  match m with
  | Handler e =>
      Scheduled (dispatch (painted s) e (cur s))
                (painted s) (painted_cb s) (awaiting s)
  | Commit => commit s
  | Effects => flush s
  end.

Definition play (ms : list moment) (s : scheduled) : scheduled :=
  foldl (λ acc m, advance m acc) s ms.

Definition mounted (cb : option nat) : scheduled :=
  Scheduled (mount cb) (ui (mount cb)) (onComplete (mount cb)) None.

(** The current state is rendered and its effect has run. *)
Definition settled (s : scheduled) : Prop :=
  awaiting s = None ∧ painted s = ui (cur s) ∧
  painted_cb s = onComplete (cur s).

(** The events of [es], each rendered and followed by its effect at once. *)
Definition at_once (es : list event) : list moment :=
  es ≫= λ e, [Handler e; Commit; Effects].

(** An armed interval is the one in [intervalRef], and it was armed by the
    effect of the render committed last unless that effect is still due. *)
Definition tidy (s : scheduled) : Prop :=
  (∀ id c, timers (cur s) !! id = Some c →
     intervalRef (cur s) = Some id ∧ c_jobId c ≠ "" ∧
     (awaiting s = None →
      rendered s = (Processing, Some (c_jobId c), c_onComplete c))) ∧
  (∀ d, awaiting s = Some d → d = rendered s).

(** Two uploads in flight, the first of which has returned job abc123 and
    is being polled; the second returns job def456 and the render of that
    state is committed, but its effect has not run yet. *)
Definition second_upload_rendered : scheduled :=
  play (at_once [FileSelect (Some "app.log"); ClickUpload;
                 Drop (Some "db.log"); ClickUpload;
                 UploadDone (Some "abc123")]
        ++ [Handler (UploadDone (Some "def456")); Commit])
       (mounted (Some 7)).

End LogUploader.

(** * AskAI: the streaming query *)

(** [askAI] is imported from api/client; the component hands it the query
    and two callbacks.  When and with what it calls them is an input of the
    model: the events [Token] and [Final]. *)

Module AskAI.

(** The values the stream hands to the callbacks: JSON documents (an object
    is the list of its own properties in enumeration order, with distinct
    keys) and plain strings.  The structured result of the analysis API has
    string and string-array fields only; numbers are left out. *)
#[local] Set Warnings "-register-all".
Inductive json :=
| JNull
| JBool (b : bool)
| JStr (s : string)
| JArr (items : list json)
| JObj (members : list (string * json)).

(** JavaScript truthiness. *)
Definition truthy_value (v : json) : bool :=
  match v with
  | JNull => false
  | JBool b => b
  | JStr s => negb (bool_decide (s = ""))
  | JArr _ | JObj _ => true
  end.

(** [String(v)], as a template literal converts an interpolated value. *)
Fixpoint to_string (v : json) : string :=
  match v with
  | JNull => "null"
  | JBool b => if b then "true" else "false"
  | JStr s => s
  | JArr items =>
      String.concat ","
        (map (λ x, match x with JNull => "" | _ => to_string x end) items)
  | JObj _ => "[object Object]"
  end.

(** [v.error] for a value other than [null]: only an object has own
    properties. *)
Fixpoint assoc (k : string) (ms : list (string * json)) : option json :=
  match ms with
  | [] => None
  | (k', v) :: ms' => if decide (k' = k) then Some v else assoc k ms'
  end.

Definition error_field (v : json) : option json :=
  match v with
  | JObj ms => assoc "error" ms
  | _ => None
  end.

(** [typeof v === 'object'] for a value other than [null]. *)
Definition is_object (v : json) : bool :=
  match v with
  | JArr _ | JObj _ => true
  | _ => false
  end.

(** ** [JSON.stringify(v, null, 2)] *)

Definition newline : string := String (ascii_of_nat 10) "".

Definition hex_digit (n : nat) : ascii :=
  ascii_of_nat (if decide (n < 10) then 48 + n else 87 + n).

(** The escape of one code unit inside a JSON string literal. *)
Definition quote_char (a : ascii) : string :=
  let n := nat_of_ascii a in
  if decide (n = 8) then "\b"
  else if decide (n = 9) then "\t"
  else if decide (n = 10) then "\n"
  else if decide (n = 12) then "\f"
  else if decide (n = 13) then "\r"
  else if decide (n = 34) then String "\" (String a "")
  else if decide (n = 92) then "\\"
  else if decide (n < 32) then
    "\u00" +:+ String (hex_digit (n / 16)) (String (hex_digit (n mod 16)) "")
  else String a "".

Fixpoint quote_body (s : string) : string :=
  match s with
  | EmptyString => ""
  | String a s' => quote_char a +:+ quote_body s'
  end.

Definition quote (s : string) : string :=
  String (ascii_of_nat 34) (quote_body s) +:+ String (ascii_of_nat 34) "".

(** [stringify ind v] is the text of [v] when the enclosing indentation is
    [ind]; every nesting level adds two spaces. *)
Fixpoint stringify (ind : string) (v : json) : string :=
  match v with
  | JNull => "null"
  | JBool b => if b then "true" else "false"
  | JStr s => quote s
  | JArr [] => "[]"
  | JArr items =>
      let ind' := ind +:+ "  " in
      "[" +:+ newline +:+ ind' +:+
      String.concat ("," +:+ newline +:+ ind') (map (stringify ind') items)
      +:+ newline +:+ ind +:+ "]"
  | JObj [] => "{}"
  | JObj members =>
      let ind' := ind +:+ "  " in
      "{" +:+ newline +:+ ind' +:+
      String.concat ("," +:+ newline +:+ ind')
        (map (λ m, quote (fst m) +:+ ": " +:+ stringify ind' (snd m)) members)
      +:+ newline +:+ ind +:+ "}"
  end.

Definition JSON_stringify (v : json) : string := stringify "" v.

(** ** The component *)

(** The code units that [trim] removes, among those below 256. *)
Definition is_space (a : ascii) : bool :=
  let n := nat_of_ascii a in
  bool_decide (9 ≤ n ≤ 13)%nat || bool_decide (n = 32) || bool_decide (n = 160).

(** [!query.trim()]: nothing is left once the white space is trimmed. *)
Fixpoint blank (s : string) : bool :=
  match s with
  | EmptyString => true
  | String a s' => is_space a && blank s'
  end.

Inductive effect :=
| AskRequest (query : string) (logIds : list string)
| SetResponse (v : json)
| Uncaught (e : string).

(** The [useState] cells, the [tokenBuffer] of every [handleAsk] call so far
    (a stream is identified by its position in this list), and the log.
    [response] starts as a string and every setter but one stores a string;
    the final callback can store the payload itself. *)
Record state := State {
  query : string;
  response : json;
  isStreaming : bool;
  buffers : list (list string);
  trace : list effect
}.

Definition initial : state := State "" (JStr "") false [] [].

Definition setQuery (q : string) (st : state) : state :=
  State q (response st) (isStreaming st) (buffers st) (trace st).

Definition setIsStreaming (b : bool) (st : state) : state :=
  State (query st) (response st) b (buffers st) (trace st).

(** [setResponse] is logged: every call is one notification of the view. *)
Definition setResponse (v : json) (st : state) : state :=
  State (query st) v (isStreaming st) (buffers st)
        (trace st ++ [SetResponse v]).

(** [handleAsk] up to its [await]: a fresh [tokenBuffer], and the request. *)
Definition handleAsk (st : state) : state :=
  if blank (query st) then st
  else
    let st1 := setResponse (JStr "") (setIsStreaming true st) in
    State (query st1) (response st1) (isStreaming st1) (buffers st1 ++ [[]])
          (trace st1 ++ [AskRequest (query st) []]).

(** The token callback of stream [sid]. *)
Definition on_token (sid : nat) (token : string) (st : state) : state :=
  match buffers st !! sid with
  | Some buf =>
      let buf' := buf ++ [token] in
      setResponse (JStr (String.concat "" buf'))
        (State (query st) (response st) (isStreaming st)
               (<[sid := buf']> (buffers st)) (trace st))
  | None => st
  end.

(** The final callback.  Reading [result.error] of [null] throws after
    [setIsStreaming(false)]. *)
Definition on_final (result : json) (st : state) : state :=
  let st1 := setIsStreaming false st in
  match result with
  | JNull =>
      State (query st1) (response st1) (isStreaming st1) (buffers st1)
            (trace st1 ++ [Uncaught "TypeError"])
  | _ =>
      match error_field result with
      | Some e =>
          if truthy_value e then
            setResponse (JStr ("Error: " +:+ to_string e)) st1
          else if is_object result then
            setResponse (JStr (JSON_stringify result)) st1
          else setResponse result st1
      | None =>
          if is_object result then
            setResponse (JStr (JSON_stringify result)) st1
          else setResponse result st1
      end
  end.

Definition handleClear (st : state) : state :=
  setResponse (JStr "") (setQuery "" st).

Inductive event :=
| Type_ (q : string)
| ClickAsk
| ClickClear
| Token (sid : nat) (token : string)
| Final (sid : nat) (result : json).

(** The guards are the [disabled] attributes: the text area while
    streaming, the Ask button while streaming or when the query is blank. *)
Definition step (e : event) (st : state) : state :=
  match e with
  | Type_ q => if isStreaming st then st else setQuery q st
  | ClickAsk => if isStreaming st then st else handleAsk st
  | ClickClear => handleClear st
  | Token sid token => on_token sid token st
  | Final sid result =>
      match buffers st !! sid with
      | Some _ => on_final result st
      | None => st
      end
  end.

Definition run (es : list event) (st : state) : state :=
  foldl (λ acc e, step e acc) st es.

(** The partial texts a token stream produces: one per token. *)
Definition partials (ts : list string) : list string :=
  map (λ n, String.concat "" (take n ts)) (seq 1 (length ts)).

(** The token callback of stream [sid] run on the tokens [ts] in turn. *)
Definition feed (sid : nat) (ts : list string) (st : state) : state :=
  foldl (λ acc tok, on_token sid tok acc) st ts.

(** A stream on which two tokens have arrived. *)
Definition streaming : state :=
  run [ClickAsk; Token 0 "Analy"; Token 0 "zing "]
      (setQuery "Why is payment-svc failing?" initial).

(** The structured result of the design's example. *)
Definition db_timeout : json :=
  JObj [("cause", JStr "DB timeout"); ("confidence", JStr "HIGH")].

(** Log and event tests. *)
Definition is_AskRequest (e : effect) : bool :=
  match e with AskRequest _ _ => true | _ => false end.

Definition is_Final (e : event) : bool :=
  match e with Final _ _ => true | _ => false end.

(** The tokens that a sequence of events delivers to stream [sid]. *)
Definition tokens_of (sid : nat) (es : list event) : list string :=
  omap (λ e, match e with
             | Token s tok => if decide (s = sid) then Some tok else None
             | _ => None
             end) es.

(** A request as [handleAsk] sends it: the query is not blank and no log id
    is referenced. *)
Definition well_asked (e : effect) : Prop :=
  match e with
  | AskRequest q ids => blank q = false ∧ ids = []
  | _ => True
  end.

End AskAI.

(** * LogTable and App: filters, pages and the background refresh *)

(** [getLogs] and [getAnalytics] are imported from api/client and the health
    check is a [fetch]; how each request settles is an input of the model:
    the event [Reply]. *)

(** A filter value: the text of an input, or the number of the range
    slider (a decimal fraction, kept as a rational) or of a page. *)
Inductive fval :=
| FStr (s : string)
| FNum (q : Q).

Module LogTable.

(** The component's own [filters] cell ([expandedRow] plays no part in the
    handler). *)
Record state := State {
  filters : gmap string fval
}.

Definition initial : state :=
  State (<["service" := FStr ""]>
        (<["level" := FStr ""]>
        (<["anomaly_threshold" := FNum (1 # 2)]>
        (<["search" := FStr ""]> ∅)))).

(** [handleFilterChange(name, value)]: the new object is the old one with
    [name] overwritten; it is stored and handed to [onFilterChange], whose
    effect on the parent is the function [onFilterChange]. *)
Definition handleFilterChange {P : Type}
    (onFilterChange : gmap string fval → P → P)
    (name : string) (value : fval) (tbl : state) (parent : P) : state * P :=
  let newFilters := <[name := value]> (filters tbl) in
  (State newFilters, onFilterChange newFilters parent).

End LogTable.

Module App.

(** A log record and the analytics payload are opaque to the component:
    each is kept as its text. *)
Definition log_record : Type := string.
Definition analytics_data : Type := string.

(** The reply of [getLogs]; any of the three fields can be missing. *)
Record logs_response := LogsResponse {
  r_logs : option (list log_record);
  r_total : option N;
  r_pages : option N
}.

(** A request in flight, with what the code after its [await] still needs. *)
Inductive request :=
| ReqAnalytics
| ReqLogs (pageNum : Z)
| ReqHealth.

(** How a request settles: its value, or the exception that is thrown. *)
Inductive reply :=
| AnalyticsOk (data : analytics_data)
| LogsOk (r : logs_response)
| HealthOk (ok : bool)
| Rejected (msg : string).

Inductive effect :=
| GetAnalytics
| GetLogs (params : gmap string fval)
| FetchHealth
| ConsoleError (msg : string)
| SetInterval (id : positive) (delay : N)
| ClearInterval (id : positive).

(** The [useState] cells, [analyticsIntervalRef.current], the armed
    intervals, the next timer id, the requests in flight and the log. *)
Record state := State {
  analytics : analytics_data;
  logs : list log_record;
  total : N;
  page : Z;
  pages : N;
  filters : gmap string fval;
  health : bool;
  analyticsIntervalRef : option positive;
  timers : gset positive;
  next_timer : positive;
  pending : list request;
  trace : list effect
}.

Definition emit (e : effect) (st : state) : state :=
  State (analytics st) (logs st) (total st) (page st) (pages st) (filters st)
        (health st) (analyticsIntervalRef st) (timers st) (next_timer st)
        (pending st) (trace st ++ [e]).

Definition issue (r : request) (st : state) : state :=
  State (analytics st) (logs st) (total st) (page st) (pages st) (filters st)
        (health st) (analyticsIntervalRef st) (timers st) (next_timer st)
        (pending st ++ [r]) (trace st).

Definition setAnalytics (d : analytics_data) (st : state) : state :=
  State d (logs st) (total st) (page st) (pages st) (filters st)
        (health st) (analyticsIntervalRef st) (timers st) (next_timer st)
        (pending st) (trace st).

Definition setHealth (b : bool) (st : state) : state :=
  State (analytics st) (logs st) (total st) (page st) (pages st) (filters st)
        b (analyticsIntervalRef st) (timers st) (next_timer st)
        (pending st) (trace st).

Definition setFilters (f : gmap string fval) (st : state) : state :=
  State (analytics st) (logs st) (total st) (page st) (pages st) f
        (health st) (analyticsIntervalRef st) (timers st) (next_timer st)
        (pending st) (trace st).

(** The four setters of [fetchLogs], called together. *)
Definition setLogsPage (l : list log_record) (n : N) (p : Z) (ps : N)
    (st : state) : state :=
  State (analytics st) l n p ps (filters st)
        (health st) (analyticsIntervalRef st) (timers st) (next_timer st)
        (pending st) (trace st).

(** [fetchAnalytics], [fetchLogs] and [checkHealth] up to their [await]. *)
Definition fetchAnalytics (st : state) : state :=
  issue ReqAnalytics (emit GetAnalytics st).

(** The argument of [getLogs]: [{ page: pageNum, ...filtersObj }]; a
    property of [filtersObj] overrides [page]. *)
Definition getLogs_params (pageNum : Z) (filtersObj : gmap string fval)
    : gmap string fval :=
  filtersObj ∪ {[ "page" := FNum (inject_Z pageNum) ]}.

Definition fetchLogs (pageNum : Z) (filtersObj : gmap string fval)
    (st : state) : state :=
  issue (ReqLogs pageNum) (emit (GetLogs (getLogs_params pageNum filtersObj)) st).

Definition checkHealth (st : state) : state :=
  issue ReqHealth (emit FetchHealth st).

(** [x || d] for a number that may be missing: zero is falsy. *)
Definition or_num (o : option N) (d : N) : N :=
  match o with
  | Some n => if decide (n = 0%N) then d else n
  | None => d
  end.

(** The code after the [await] of the request [req], run with [rep]. *)
Definition settle (req : request) (rep : reply) (st : state) : state :=
  match req, rep with
  | ReqAnalytics, AnalyticsOk d => setAnalytics d st
  | ReqAnalytics, Rejected msg => emit (ConsoleError msg) st
  | ReqLogs pageNum, LogsOk r =>
      setLogsPage (default [] (r_logs r)) (or_num (r_total r) 0) pageNum
                  (or_num (r_pages r) 1) st
  | ReqLogs _, Rejected msg => emit (ConsoleError msg) st
  | ReqHealth, HealthOk ok => setHealth ok st
  | ReqHealth, Rejected _ => setHealth false st
  | _, _ => st
  end.

Definition REFRESH_MS : N := 30000.

(** The callback of the refresh interval. *)
Definition refresh (st : state) : state :=
  checkHealth (fetchAnalytics st).

(** The mount effect, run on the initial state; [filters] is the initial
    empty object. *)
Definition initial : state :=
  State "{}" [] 0 1 1 ∅ false None ∅ 1%positive [] [].

Definition mount_effect (st : state) : state :=
  let st1 := checkHealth (fetchLogs 1 (filters st) (fetchAnalytics st)) in
  let id := next_timer st1 in
  State (analytics st1) (logs st1) (total st1) (page st1) (pages st1)
        (filters st1) (health st1) (Some id) ({[ id ]} ∪ timers st1)
        (Pos.succ id) (pending st1) (trace st1 ++ [SetInterval id REFRESH_MS]).

Definition mount : state := mount_effect initial.

(** The cleanup of the mount effect, run when the component unmounts. *)
Definition unmount (st : state) : state :=
  match analyticsIntervalRef st with
  | Some id =>
      State (analytics st) (logs st) (total st) (page st) (pages st)
            (filters st) (health st) (analyticsIntervalRef st)
            (timers st ∖ {[ id ]}) (next_timer st) (pending st)
            (trace st ++ [ClearInterval id])
  | None => st
  end.

(** [handleUploadComplete]; [captured] is the [filters] of the render whose
    closure the uploader was given. *)
Definition handleUploadComplete (captured : gmap string fval) (st : state)
    : state :=
  fetchLogs 1 captured (fetchAnalytics st).

Definition handleFilterChange (newFilters : gmap string fval) (st : state)
    : state :=
  fetchLogs 1 newFilters (setFilters newFilters st).

Definition handlePageChange (newPage : Z) (st : state) : state :=
  fetchLogs newPage (filters st) st.

Inductive event :=
| FilterChange (newFilters : gmap string fval)
| PageChange (newPage : Z)
| UploadComplete (captured : gmap string fval)
| Tick (id : positive)
| Reply (k : nat) (rep : reply).

Definition step (e : event) (st : state) : state :=
  match e with
  | FilterChange f => handleFilterChange f st
  | PageChange p => handlePageChange p st
  | UploadComplete f => handleUploadComplete f st
  | Tick id => if decide (id ∈ timers st) then refresh st else st
  | Reply k rep =>
      match pending st !! k with
      | Some req =>
          settle req rep
            (State (analytics st) (logs st) (total st) (page st) (pages st)
                   (filters st) (health st) (analyticsIntervalRef st)
                   (timers st) (next_timer st) (delete k (pending st))
                   (trace st))
      | None => st
      end
  end.

Definition run (es : list event) (st : state) : state :=
  foldl (λ acc e, step e acc) st es.

(** A filter change in the table, wired to the parent as in the JSX
    ([onFilterChange={handleFilterChange}]): the operation the design calls
    applyFilter. *)
Definition applyFilter (name : string) (value : fval)
    (s : LogTable.state * state) : LogTable.state * state :=
  LogTable.handleFilterChange handleFilterChange name value (fst s) (snd s).

(** What the list view shows. *)
Definition displayed (st : state) : list log_record * N * Z * N :=
  (logs st, total st, page st, pages st).

(** The coordinator showing page 3 of 6. *)
Definition on_page_3 : state :=
  run [Reply 1 (LogsOk (LogsResponse (Some ["l1"; "l2"]) (Some 57%N) (Some 6%N)));
       PageChange 3;
       Reply 2 (LogsOk (LogsResponse (Some ["l21"]) (Some 57%N) (Some 6%N)))]
      mount.

Definition is_SetInterval (e : effect) : bool :=
  match e with SetInterval _ _ => true | _ => false end.
Definition is_ClearInterval (e : effect) : bool :=
  match e with ClearInterval _ => true | _ => false end.

(** A log fetch that succeeds. *)
Definition is_LogsOk (e : event) : bool :=
  match e with Reply _ (LogsOk _) => true | _ => false end.

(** The filters of the last filter change among the events. *)
Definition last_filters (es : list event) : option (gmap string fval) :=
  foldl (λ acc e, match e with FilterChange f => Some f | _ => acc end)
        None es.

(** The argument of every filter change in a sequence of changes from the
    filters [m]: each is the one before it with one field overwritten. *)
Fixpoint merges (m : gmap string fval) (changes : list (string * fval))
    : list (gmap string fval) :=
  match changes with
  | [] => []
  | c :: changes' =>
      let m' := <[c.1 := c.2]> m in m' :: merges m' changes'
  end.

End App.

(** * The logs tab: the table inside the coordinator *)

(** [App] renders [LogTable] with [page], [pages] and its two handlers as
    props; the pagination buttons of the table call [onPageChange] unless
    they are disabled. *)

Module LogsTab.

(** [disabled={page === 1}] and [disabled={page === pages}]. *)
Definition previous_disabled (page : Z) : bool := bool_decide (page = 1%Z).

Definition next_disabled (page : Z) (pages : N) : bool :=
  bool_decide (page = Z.of_N pages).

(** What the handlers of this tab can be called with; which of these calls
    the page makes is [action] below. *)
Inductive event :=
| ChangeFilter (name : string) (value : fval)
| ClickPrevious
| ClickNext
| UploadCompleted (captured : gmap string fval)
| Tick (id : positive)
| Reply (k : nat) (rep : App.reply).

Definition step (e : event) (s : LogTable.state * App.state)
    : LogTable.state * App.state :=
  match e with
  | ChangeFilter name value => App.applyFilter name value s
  | ClickPrevious =>
      if previous_disabled (App.page s.2) then s
      else (s.1, App.handlePageChange (App.page s.2 - 1) s.2)
  | ClickNext =>
      if next_disabled (App.page s.2) (App.pages s.2) then s
      else (s.1, App.handlePageChange (App.page s.2 + 1) s.2)
  | UploadCompleted f => (s.1, App.step (App.UploadComplete f) s.2)
  | Tick id => (s.1, App.step (App.Tick id) s.2)
  | Reply k rep => (s.1, App.step (App.Reply k rep) s.2)
  end.

Definition run (es : list event) (s : LogTable.state * App.state)
    : LogTable.state * App.state :=
  foldl (λ acc e, step e acc) s es.


(** The tab as first shown. *)
Definition initial : LogTable.state * App.state :=
  (LogTable.initial, App.mount).

(** The pages that are on display or asked for are real page numbers. *)
Definition pages_sane (st : App.state) : Prop :=
  (1 ≤ App.page st)%Z ∧ App.pages st ≠ 0%N ∧
  Forall (λ r, match r with
               | App.ReqLogs p => (1 ≤ p)%Z
               | _ => True
               end) (App.pending st).

(** ** What the page lets happen

    [step] takes any filter name and any captured filters.  The table has
    four inputs, each of which passes its own name to [handleFilterChange];
    the value is the text of the input, or the number [parseFloat] reads
    from the slider (any text and any number here).  The uploader calls the
    [handleUploadComplete] of the render its callback was taken from, whose
    [filters] are those of that render.  Leaving the logs tab and coming
    back mounts a new [LogTable], with the filters of its [useState], under
    the [App] that stays mounted. *)
Inductive input :=
| Search (text : string)
| Service (text : string)
| Level (value : string)
| AnomalyThreshold (value : Q).

Definition input_name (i : input) : string :=
  match i with
  | Search _ => "search"
  | Service _ => "service"
  | Level _ => "level"
  | AnomalyThreshold _ => "anomaly_threshold"
  end.

Definition input_value (i : input) : fval :=
  match i with
  | Search s | Service s | Level s => FStr s
  | AnomalyThreshold q => FNum q
  end.

Inductive action :=
| Edit (i : input)
| Previous
| Next
| UploaderDone (age : nat)
| Refresh (id : positive)
| Settled (k : nat) (rep : App.reply)
| Reopen.

(** The table, the coordinator, and the [filters] of every render of the
    coordinator so far, the latest first. *)
Record tab := Tab {
  table : LogTable.state;
  app : App.state;
  renders : list (gmap string fval)
}.

Definition rendered (s : LogTable.state * App.state)
    (before : list (gmap string fval)) : tab :=
  Tab s.1 s.2 (App.filters s.2 :: before).

Definition act (a : action) (s : tab) : tab :=
  let now := (table s, app s) in
  match a with
  | Edit i =>
      rendered (step (ChangeFilter (input_name i) (input_value i)) now)
               (renders s)
  | Previous => rendered (step ClickPrevious now) (renders s)
  | Next => rendered (step ClickNext now) (renders s)
  | UploaderDone age =>
      match renders s !! age with
      | Some captured => rendered (step (UploadCompleted captured) now)
                                  (renders s)
      | None => s
      end
  | Refresh id => rendered (step (Tick id) now) (renders s)
  | Settled k rep => rendered (step (Reply k rep) now) (renders s)
  | Reopen => rendered (LogTable.initial, app s) (renders s)
  end.

Definition perform (l : list action) (s : tab) : tab :=
  foldl (λ acc a, act a acc) s l.

(** The page once the coordinator is mounted. *)
Definition opened : tab := rendered initial [].

Definition is_Edit (a : action) : bool :=
  match a with Edit _ => true | _ => false end.

(** Whether the last filter edit is more recent than the last time the tab
    was opened. *)
Definition edited_since_opened (l : list action) : bool :=
  foldl (λ b a, match a with
                | Edit _ => true
                | Reopen => false
                | _ => b
                end) false l.

(** A filters object without a [page] property. *)
Definition no_page (m : gmap string fval) : Prop := m !! "page" = None.

(** A request for logs asks for a page that exists. *)
Definition page_ok (e : App.effect) : Prop :=
  match e with
  | App.GetLogs params =>
      ∃ p, params !! "page" = Some (FNum (inject_Z p)) ∧ (1 ≤ p)%Z
  | _ => True
  end.

(** What holds of the page throughout. *)
Definition sound (s : tab) : Prop :=
  pages_sane (app s) ∧ Forall page_ok (App.trace (app s)) ∧
  no_page (LogTable.filters (table s)) ∧ no_page (App.filters (app s)) ∧
  Forall no_page (renders s).

End LogsTab.

(** * Properties *)

Lemma count_app {A : Type} (p : A → bool) (l1 l2 : list A) :
  count p (l1 ++ l2) = count p l1 + count p l2.
Proof.
  induction l1 as [|x l1 IH]; simpl; [done|]. rewrite IH. lia.
Qed.

(** ** The job tracker *)

Section LogUploaderFacts.
Import LogUploader.

(** A handler that leaves the dependencies alone is followed by no effect. *)
Lemma step_keep e t : deps (handle e t) = deps t → step e t = handle e t.
Proof. intros H. unfold step, render. by rewrite decide_True. Qed.

Lemma step_Tick id t : step (Tick id) t = tick id t.
Proof.
  apply step_keep. simpl. unfold tick. by destruct (timers t !! id).
Qed.

Lemma step_PollErr k e t :
  step (PollReply k (PollErr e)) t = poll_reply k (PollErr e) t.
Proof.
  apply step_keep. simpl. unfold poll_reply. by destruct (polls t !! k).
Qed.

Lemma not_terminal jb :
  terminal (PollOk jb) = false →
  job_status jb ≠ "completed" ∧ job_status jb ≠ "failed".
Proof.
  simpl. intros [H1 H2]%orb_false_iff.
  by apply bool_decide_eq_false in H1, H2.
Qed.

(** A poll that is answered by a status that does not end the job, or by an
    error, only adds to the log. *)
Lemma poll_once_pending j cb id t r :
  polling j cb id t → terminal r = false →
  poll_once r t = logged (GetJob j :: pending_log r) t.
Proof.
  destruct t as [[f s p ji d] oc ir tm nt pl up tr].
  unfold polling; simpl. intros (-> & -> & Hj & -> & -> & -> & ->) Hr.
  unfold poll_once; simpl. rewrite step_Tick. unfold tick; simpl.
  rewrite lookup_singleton_eq. simpl.
  rewrite step_keep; simpl; unfold poll_reply; simpl.
  - destruct r as [jb|e]; simpl;
      [|by unfold emit, logged; simpl; rewrite <- app_assoc].
    apply not_terminal in Hr as [H1 H2].
    by rewrite !decide_False by done.
  - destruct r as [jb|e]; simpl; [|done].
    apply not_terminal in Hr as [H1 H2].
    by rewrite !decide_False by done.
Qed.

Lemma polling_logged j cb id t es :
  polling j cb id t → polling j cb id (logged es t).
Proof. done. Qed.

Lemma poll_all_pending j cb id t pre :
  polling j cb id t → Forall (λ r, terminal r = false) pre →
  poll_all pre t =
  logged (flat_map (λ r, GetJob j :: pending_log r) pre) t.
Proof.
  intros Hp Hpre. revert t Hp.
  induction Hpre as [|r pre Hr _ IH]; intros t Hp.
  - destruct t. unfold poll_all, logged. simpl. by rewrite app_nil_r.
  - unfold poll_all in *. simpl foldl.
    rewrite (poll_once_pending j cb id) by done.
    rewrite IH by done. unfold logged. simpl.
    by rewrite <- app_assoc.
Qed.

Lemma added_app t t' new : trace t' = trace t ++ new → added t t' = new.
Proof. intros H. unfold added. by rewrite H, drop_app_length. Qed.

(** A quiet event keeps the tracker polling its job and adds neither a
    message nor a callback invocation to the log. *)
Lemma in_flight_step j t e :
  in_flight j t → quiet e = true →
  in_flight j (step e t) ∧
  ∃ new, trace (step e t) = trace t ++ new ∧
         shown new = [] ∧ completions new = [].
Proof.
  destruct t as [[f s p ji d] oc ir tm nt pl up tr].
  unfold in_flight; cbn [ui status jobId onComplete intervalRef timers polls].
  intros (-> & -> & Hj & (id & cb & -> & -> & ->) & Hpl) Hq.
  destruct e as [| | | | | |id'|k r|[cb'|]]; try discriminate Hq.
  - rewrite step_Tick. unfold tick. cbn [timers].
    destruct (decide (id = id')) as [<-|Hne].
    + rewrite lookup_singleton_eq. cbn. split.
      * repeat split; try done; [by exists id, cb|].
        apply Forall_app. split; [done|]. repeat constructor. by exists cb.
      * by exists [GetJob j].
    + rewrite lookup_singleton_ne by done. split.
      * repeat split; try done. by exists id, cb.
      * exists []. by rewrite app_nil_r.
  - cbn in Hq. apply negb_true_iff in Hq.
    rewrite step_keep.
    2: { cbn [handle]. unfold poll_reply. cbn [polls].
         destruct (pl !! k) as [c|]; [|done].
         destruct r as [jb|e]; cbn; [|done].
         apply not_terminal in Hq as [H1 H2]. by rewrite !decide_False. }
    cbn [handle]. unfold poll_reply. cbn [polls].
    destruct (pl !! k) as [c|] eqn:Hk.
    2: { split; [repeat split; try done; by exists id, cb|].
         exists []. by rewrite app_nil_r. }
    destruct r as [jb|e]; cbn.
    + apply not_terminal in Hq as [H1 H2]. rewrite !decide_False by done.
      cbn. split.
      * repeat split; try done; [by exists id, cb|by apply Forall_delete].
      * exists []. by rewrite app_nil_r.
    + split.
      * repeat split; try done; [by exists id, cb|by apply Forall_delete].
      * by exists [ConsoleError e].
  - unfold step, render, deps. cbn.
    destruct (decide (cb' = cb)) as [->|Hne].
    + rewrite decide_True by done. split.
      * repeat split; try done. by exists id, cb.
      * exists []. by rewrite app_nil_r.
    + rewrite decide_False by congruence.
      unfold effect_cleanup, clearInterval_ref. cbn.
      rewrite delete_singleton_eq. unfold effect_body. cbn.
      rewrite decide_False by done. cbn. split.
      * repeat split; try done. exists nt, cb'. by rewrite insert_empty.
      * exists [ClearInterval id; SetInterval nt POLL_MS].
        by rewrite <- app_assoc.
Qed.

Lemma in_flight_run j es : ∀ t,
  in_flight j t → Forall (λ e, quiet e = true) es →
  in_flight j (run es t) ∧
  ∃ new, trace (run es t) = trace t ++ new ∧
         shown new = [] ∧ completions new = [].
Proof.
  induction es as [|e es IH]; intros t Ht Hes.
  - split; [done|]. exists []. by rewrite app_nil_r.
  - apply Forall_cons in Hes as [He Hes].
    destruct (in_flight_step j t e Ht He) as (Ht1 & new1 & E1 & S1 & C1).
    destruct (IH (step e t) Ht1 Hes) as (Ht2 & new2 & E2 & S2 & C2).
    change (run (e :: es) t) with (run es (step e t)).
    split; [done|]. exists (new1 ++ new2).
    rewrite E2, E1, <- app_assoc. unfold shown, completions in *.
    by rewrite !omap_app, S1, S2, C1, C2.
Qed.

(** The reply that ends the job, for a request in flight. *)
Lemma in_flight_completed j t k jb :
  in_flight j t → k < length (polls t) → job_status jb = "completed" →
  let t' := step (PollReply k (PollOk jb)) t in
  (∃ id cb, trace t' = trace t ++ [ShowText (done_text jb); ClearInterval id;
                                   CallOnComplete cb; ClearInterval id]) ∧
  status (ui t') = Completed ∧ displayText (ui t') = done_text jb ∧
  timers t' = ∅.
Proof.
  destruct t as [[f s p ji d] oc ir tm nt pl up tr].
  unfold in_flight; cbn [ui status jobId onComplete intervalRef timers polls].
  intros (-> & -> & Hj & (id & cb & -> & -> & ->) & Hpl) Hk Hjb.
  destruct (lookup_lt_is_Some_2 pl k Hk) as [c Hc].
  destruct (proj1 (Forall_lookup _ _) Hpl k c Hc) as [_ [cbc Hcbc]].
  unfold step. cbn [handle]. unfold poll_reply. cbn [polls].
  rewrite Hc. unfold on_reply.
  rewrite (decide_True (P := job_status jb = "completed")) by done.
  unfold call_onComplete. rewrite Hcbc.
  unfold render, deps. cbn -[done_text].
  unfold effect_cleanup. cbn -[done_text].
  rewrite delete_singleton_eq, delete_empty.
  repeat split; try done. exists id, cbc. by rewrite <- !app_assoc.
Qed.

Lemma in_flight_failed j t k jb :
  in_flight j t → k < length (polls t) → job_status jb = "failed" →
  let t' := step (PollReply k (PollOk jb)) t in
  (∃ id, trace t' = trace t ++ [ShowText (error_text jb); ClearInterval id;
                                ClearInterval id]) ∧
  status (ui t') = Failed ∧ displayText (ui t') = error_text jb ∧
  timers t' = ∅.
Proof.
  destruct t as [[f s p ji d] oc ir tm nt pl up tr].
  unfold in_flight; cbn [ui status jobId onComplete intervalRef timers polls].
  intros (-> & -> & Hj & (id & cb & -> & -> & ->) & Hpl) Hk Hjb.
  destruct (lookup_lt_is_Some_2 pl k Hk) as [c Hc].
  unfold step. cbn [handle]. unfold poll_reply. cbn [polls].
  rewrite Hc. unfold on_reply.
  rewrite (decide_False (P := job_status jb = "completed"))
    by (rewrite Hjb; done).
  rewrite (decide_True (P := job_status jb = "failed")) by done.
  unfold render, deps. cbn -[error_text].
  unfold effect_cleanup. cbn -[error_text].
  rewrite delete_singleton_eq, delete_empty.
  repeat split; try done. exists id. by rewrite <- !app_assoc.
Qed.

Lemma idle_Tick id t : timers t = ∅ → step (Tick id) t = t.
Proof. intros H. rewrite step_Tick. unfold tick. by rewrite H, lookup_empty. Qed.

(** *** Terminal statuses *)

(** C1, as stated, fails: when two ticks fire before the first reply is
    back, both requests are in flight, and if both are answered [completed]
    the callback after each [await] runs to its end: [onComplete] is invoked
    twice for a status sequence that ends in [completed]. *)
Lemma overlapping_polls_complete_twice :
  let done := PollOk (Job "completed" (Some 42%N) None) in
  let t := run [Tick 1; Tick 1; PollReply 0 done; PollReply 0 done] started in
  completions (added started t) = [7; 7] ∧
  count is_GetJob (added started t) = 2 ∧
  count is_CallOnComplete (added started t) = 2 ∧
  count is_CallOnComplete (added started t) ≠ 1.
Proof. vm_compute. repeat split; done. Qed.

(** C1, amended: take any run of a tracker that polls a job, in which ticks,
    replies and re-renders of the parent come in any order and every reply
    is a status that does not end the job or a transport error; then let
    the reply to one of the requests in flight be [completed], the only
    terminal status of the sequence.  The tracker invokes [onComplete]
    exactly once, shows exactly one message, which carries the final
    processed count (0 when the count is missing), and issues no further
    poll request: no interval is left armed and every later tick is a
    no-op. *)
Theorem completed_once j t es k pc err :
  in_flight j t →
  Forall (λ e, quiet e = true) es →
  k < length (polls (run es t)) →
  let t' := step (PollReply k (PollOk (Job "completed" pc err))) (run es t) in
  (∃ cb, completions (added t t') = [cb]) ∧
  shown (added t t')
  = ["Done! " +:+ pretty (default 0%N pc) +:+ " logs processed."] ∧
  status (ui t') = Completed ∧
  displayText (ui t')
  = "Done! " +:+ pretty (default 0%N pc) +:+ " logs processed." ∧
  timers t' = ∅ ∧
  ∀ id, step (Tick id) t' = t'.
Proof.
  intros Ht Hes Hk t'.
  destruct (in_flight_run j es t Ht Hes) as (Ht1 & new & E & S & C).
  destruct (in_flight_completed j (run es t) k (Job "completed" pc err)
              Ht1 Hk eq_refl) as ((id & cb & E') & Hs & Hd & Htm).
  fold t' in E', Hs, Hd, Htm. rewrite E, <- app_assoc in E'.
  rewrite (added_app _ _ _ E'). unfold shown, completions in *.
  rewrite !omap_app, S, C. repeat split; try done.
  - by exists cb.
  - intros id'. by apply idle_Tick.
Qed.

(** A run with two polls in flight at once, a re-render of the parent and a
    transport error before the job completes. *)
Lemma completed_once_witness :
  let es := [Tick 1; PollReply 0 (PollOk (Job "queued" None None));
             Tick 1; Tick 1;
             PollReply 0 (PollOk (Job "processing" (Some 10%N) None));
             Rerender (Some 8); Tick 2; PollReply 0 (PollErr "timeout")] in
  let t' := step (PollReply 0 (PollOk (Job "completed" (Some 42%N) None)))
                 (run es started) in
  (∃ cb, completions (added started t') = [cb]) ∧
  shown (added started t')
  = ["Done! " +:+ pretty (default 0%N (Some 42%N)) +:+ " logs processed."] ∧
  status (ui t') = Completed ∧
  displayText (ui t')
  = "Done! " +:+ pretty (default 0%N (Some 42%N)) +:+ " logs processed." ∧
  timers t' = ∅ ∧
  ∀ id, step (Tick id) t' = t'.
Proof.
  apply (completed_once "abc123" started
           [Tick 1; PollReply 0 (PollOk (Job "queued" None None));
            Tick 1; Tick 1;
            PollReply 0 (PollOk (Job "processing" (Some 10%N) None));
            Rerender (Some 8); Tick 2; PollReply 0 (PollErr "timeout")]
           0 (Some 42%N) None).
  - unfold in_flight. split_and!.
    + vm_compute. reflexivity.
    + vm_compute. reflexivity.
    + discriminate.
    + exists 1%positive, 7. split_and!; vm_compute; reflexivity.
    + vm_compute. constructor.
  - repeat constructor.
  - vm_compute. lia.
Defined.

(** C5, as stated, fails in the same way: two requests in flight that are
    both answered [failed] produce two failure messages, and the second
    replaces the first. *)
Lemma overlapping_polls_fail_twice :
  let t := run [Tick 1; Tick 1;
                PollReply 0 (PollOk (Job "failed" None (Some "disk full")));
                PollReply 0 (PollOk (Job "failed" None (Some "worker lost")))]
               started in
  shown (added started t) = ["Error: disk full"; "Error: worker lost"] ∧
  length (shown (added started t)) ≠ 1 ∧
  displayText (ui t) = "Error: worker lost".
Proof. vm_compute. repeat split; done. Qed.

(** C5, amended: take any run of a tracker that polls a job, in which ticks,
    replies and re-renders of the parent come in any order and every reply
    is a status that does not end the job or a transport error; then let
    the reply to one of the requests in flight be [failed], the only
    terminal status of the sequence.  The tracker shows exactly one message,
    [Error: ] followed by the error text the backend reported ([Unknown
    error] when it reported none), does not invoke [onComplete], and stops
    polling: the status is Failed, no interval is left armed and every later
    tick is a no-op. *)
Theorem failed_once j t es k pc err :
  in_flight j t →
  Forall (λ e, quiet e = true) es →
  k < length (polls (run es t)) →
  let t' := step (PollReply k (PollOk (Job "failed" pc err))) (run es t) in
  shown (added t t') = ["Error: " +:+ or_default err "Unknown error"] ∧
  (∀ e, err = Some e → e ≠ "" → shown (added t t') = ["Error: " +:+ e]) ∧
  completions (added t t') = [] ∧
  status (ui t') = Failed ∧
  displayText (ui t') = "Error: " +:+ or_default err "Unknown error" ∧
  timers t' = ∅ ∧
  ∀ id, step (Tick id) t' = t'.
Proof.
  intros Ht Hes Hk t'.
  destruct (in_flight_run j es t Ht Hes) as (Ht1 & new & E & S & C).
  destruct (in_flight_failed j (run es t) k (Job "failed" pc err)
              Ht1 Hk eq_refl) as ((id & E') & Hs & Hd & Htm).
  fold t' in E', Hs, Hd, Htm. rewrite E, <- app_assoc in E'.
  rewrite (added_app _ _ _ E'). unfold shown, completions in *.
  rewrite !omap_app, S, C. repeat split; try done.
  - intros e -> He. cbn. unfold error_text, or_default, truthy. cbn.
    by rewrite decide_False.
  - intros id'. by apply idle_Tick.
Qed.

Lemma failed_once_witness :
  let es := [Tick 1; PollReply 0 (PollOk (Job "queued" None None));
             Tick 1; Tick 1; PollReply 1 (PollErr "Network Error")] in
  let t' := step (PollReply 0 (PollOk (Job "failed" (Some 10%N)
                                           (Some "disk full"))))
                 (run es started) in
  shown (added started t')
  = ["Error: " +:+ or_default (Some "disk full") "Unknown error"] ∧
  (∀ e, Some "disk full" = Some e → e ≠ "" →
        shown (added started t') = ["Error: " +:+ e]) ∧
  completions (added started t') = [] ∧
  status (ui t') = Failed ∧
  displayText (ui t')
  = "Error: " +:+ or_default (Some "disk full") "Unknown error" ∧
  timers t' = ∅ ∧
  ∀ id, step (Tick id) t' = t'.
Proof.
  apply (failed_once "abc123" started
           [Tick 1; PollReply 0 (PollOk (Job "queued" None None));
            Tick 1; Tick 1; PollReply 1 (PollErr "Network Error")]
           0 (Some 10%N) (Some "disk full")).
  - unfold in_flight. split_and!.
    + vm_compute. reflexivity.
    + vm_compute. reflexivity.
    + discriminate.
    + exists 1%positive, 7. split_and!; vm_compute; reflexivity.
    + vm_compute. constructor.
  - repeat constructor.
  - vm_compute. lia.
Defined.

(** The end-to-end scenario of the design, one reply per tick: queued,
    processing (10), processing (42), completed (42).  Four requests, one
    message, one invocation of the callback; the tracker reports nothing
    while the job is processing. *)
Example end_to_end :
  let t' := poll_all [PollOk (Job "queued" None None);
                      PollOk (Job "processing" (Some 10%N) None);
                      PollOk (Job "processing" (Some 42%N) None);
                      PollOk (Job "completed" (Some 42%N) None)] started in
  added started t'
  = [GetJob "abc123"; GetJob "abc123"; GetJob "abc123"; GetJob "abc123";
     ShowText "Done! 42 logs processed."; ClearInterval 1; CallOnComplete 7;
     ClearInterval 1] ∧
  status (ui t') = Completed ∧ timers t' = ∅.
Proof. vm_compute. repeat split; done. Qed.

(** C6: a poll that ends in a transport error changes nothing of the
    tracker but its console log: the status, progress, job id and text on
    display, the armed intervals and [intervalRef] are as before.  From a
    polling tracker, any number of polls that all fail leave it polling the
    same job on the same interval, never re-armed, and every one of them has
    issued its request: there is no cap on the retries and no change of the
    period. *)
Theorem poll_error_swallowed :
  (∀ k e t,
     let t' := step (PollReply k (PollErr e)) t in
     ui t' = ui t ∧ timers t' = timers t ∧ intervalRef t' = intervalRef t ∧
     onComplete t' = onComplete t ∧
     (trace t' = trace t ∨ trace t' = trace t ++ [ConsoleError e])) ∧
  (∀ j cb id t errs,
     polling j cb id t →
     let t' := poll_all (PollErr <$> errs) t in
     polling j cb id t' ∧ ui t' = ui t ∧
     trace t' = trace t ++ flat_map (λ e, [GetJob j; ConsoleError e]) errs).
Proof.
  split.
  - intros k e t t'. subst t'. rewrite step_PollErr. unfold poll_reply.
    destruct (polls t !! k); simpl; auto 10.
  - intros j cb id t errs Hp t'. subst t'.
    rewrite (poll_all_pending j cb id t (PollErr <$> errs) Hp)
      by (apply Forall_fmap; by apply Forall_true).
    split; [by apply polling_logged|]. split; [done|].
    cbn [logged trace]. f_equal.
    induction errs as [|e errs IH]; [done|].
    rewrite fmap_cons. cbn [flat_map pending_log app]. by rewrite IH.
Qed.

Lemma poll_error_swallowed_witness :
  let t' := poll_all (PollErr <$> ["Network Error"; "timeout"]) started in
  polling "abc123" (Some 7) 1 t' ∧ ui t' = ui started ∧
  trace t' = trace started ++
             [GetJob "abc123"; ConsoleError "Network Error";
              GetJob "abc123"; ConsoleError "timeout"].
Proof.
  apply (proj2 poll_error_swallowed "abc123" (Some 7) 1%positive started
           ["Network Error"; "timeout"]).
  vm_compute. repeat split; done.
Defined.

(** *** Supersession *)

Lemma keeps_refl t : keeps t t.
Proof. by split. Qed.

Lemma keeps_trans t3 t2 t1 : keeps t3 t2 → keeps t2 t1 → keeps t3 t1.
Proof. intros [H1 H2] [H3 H4]. split; [congruence|auto]. Qed.

Lemma keeps_emit e t : keeps (emit e t) t.
Proof. by split. Qed.

Lemma keeps_with_ui f t : keeps (with_ui f t) t.
Proof. by split. Qed.

Lemma keeps_setDisplayText s t : keeps (setDisplayText s t) t.
Proof. by split. Qed.

Lemma keeps_clearInterval_ref t : keeps (clearInterval_ref t) t.
Proof.
  unfold clearInterval_ref. destruct (intervalRef t) as [i|] eqn:Hi;
    [|apply keeps_refl].
  split; [done|]. intros id c. cbn [timers]. rewrite lookup_delete_Some. tauto.
Qed.

Lemma keeps_call_onComplete c t : keeps (call_onComplete c t) t.
Proof.
  unfold call_onComplete.
  destruct (c_onComplete c); [apply keeps_emit|apply keeps_refl].
Qed.

Lemma keeps_select f t :
  keeps (setDisplayText ""
           (with_ui (λ v, setJobId None (setProgress 0 (setStatus Queued
                            (setFile (Some f) v)))) t)) t.
Proof.
  eapply keeps_trans; [apply keeps_setDisplayText|apply keeps_with_ui].
Qed.

Lemma on_reply_frame c r t : keeps (on_reply c r t) t.
Proof.
  unfold on_reply. destruct r as [jb|e]; [|apply keeps_emit].
  repeat case_decide; [| |apply keeps_refl].
  - eapply keeps_trans; [apply keeps_call_onComplete|].
    eapply keeps_trans; [apply keeps_clearInterval_ref|].
    eapply keeps_trans; [apply keeps_setDisplayText|apply keeps_with_ui].
  - eapply keeps_trans; [apply keeps_clearInterval_ref|].
    eapply keeps_trans; [apply keeps_setDisplayText|apply keeps_with_ui].
Qed.

(** No handler arms an interval or moves [intervalRef]: only the effect
    does. *)
Lemma handle_frame e t : keeps (handle e t) t.
Proof.
  destruct e as [f|f| |pct|job_id|msg|id|k r|cb]; cbn [handle].
  - destruct (status (ui t)); try apply keeps_refl;
      (destruct f; [apply keeps_select|apply keeps_refl]).
  - destruct f; [apply keeps_select|apply keeps_refl].
  - destruct (file (ui t)) as [f|] eqn:Hf; [|apply keeps_refl].
    destruct (status (ui t)); try apply keeps_refl.
    unfold handleUpload. rewrite Hf. by split.
  - destruct (uploads t); [apply keeps_refl|by split].
  - destruct (uploads t); [apply keeps_refl|by split].
  - destruct (uploads t); [apply keeps_refl|by split].
  - unfold tick. destruct (timers t !! id); [by split|apply keeps_refl].
  - unfold poll_reply. destruct (polls t !! k) as [c|]; [|apply keeps_refl].
    eapply keeps_trans; [apply on_reply_frame|by split].
  - by split.
Qed.

Lemma cleanup_clears t :
  (∀ id c, timers t !! id = Some c → intervalRef t = Some id) →
  timers (effect_cleanup t) = ∅ ∧
  ui (effect_cleanup t) = ui t ∧ onComplete (effect_cleanup t) = onComplete t.
Proof.
  intros W. unfold effect_cleanup, clearInterval_ref.
  destruct (intervalRef t) as [i|] eqn:Hi; simpl; (split; [|done]);
    apply map_eq; intros id; rewrite lookup_empty.
  - destruct (decide (i = id)) as [->|Hne]; [by rewrite lookup_delete_eq|].
    rewrite lookup_delete_ne by done.
    destruct (timers t !! id) as [c|] eqn:Hc; [|done].
    apply W in Hc. congruence.
  - destruct (timers t !! id) as [c|] eqn:Hc; [|done].
    apply W in Hc. congruence.
Qed.

Lemma effect_body_current t :
  timers t = ∅ → current_only (effect_body t).
Proof.
  intros Ht. unfold effect_body.
  destruct (status (ui t)) eqn:Hs;
    try (intros id c; rewrite Ht, lookup_empty; done).
  destruct (truthy (jobId (ui t))) as [j|] eqn:Hj;
    [|intros id c; rewrite Ht, lookup_empty; done].
  intros id c. simpl. rewrite Ht. rewrite lookup_insert.
  case_decide; [|by rewrite lookup_empty].
  intros [= <-]. subst id. simpl. repeat split; try done.
  - unfold truthy in Hj. destruct (jobId (ui t)) as [s|]; [|done].
    by case_decide; simplify_eq.
  - unfold truthy in Hj. destruct (jobId (ui t)) as [s|]; [|done].
    by case_decide; simplify_eq.
Qed.

Lemma step_current e t : current_only t → current_only (step e t).
Proof.
  intros Hc. destruct (handle_frame e t) as [Hr Ht].
  unfold step, render. case_decide as Hd.
  - intros id c Hl. destruct (Hc id c (Ht _ _ Hl)) as (?&?&?&?&?).
    unfold deps in Hd. simplify_eq. rewrite Hr. repeat split; congruence.
  - apply effect_body_current, cleanup_clears.
    intros id c Hl. rewrite Hr. by destruct (Hc id c (Ht _ _ Hl)).
Qed.

Lemma mount_current cb : current_only (mount cb).
Proof. intros id c. unfold mount. simpl. by rewrite lookup_empty. Qed.

Lemma run_current es t : current_only t → current_only (run es t).
Proof.
  revert t. induction es as [|e es IH]; intros t Hc; [done|].
  simpl. apply IH. by apply step_current.
Qed.

(** C7, as stated, fails: a request of the retired job that is in flight
    when the new upload starts is not cancelled.  When its reply arrives and
    says [completed], the callback of the retired job runs in the middle of
    the new job: it shows the old job's result, invokes [onComplete] and
    clears [intervalRef.current], which by then is the interval of the new
    job. *)
Lemma stale_reply_ends_new_job :
  let t := step (PollReply 0 (PollOk (Job "completed" (Some 42%N) None)))
                superseded in
  jobId (ui superseded) = Some "def456" ∧
  polls superseded = [Closure "abc123" (Some 7)] ∧
  timers superseded = {[ 2%positive := Closure "def456" (Some 7) ]} ∧
  jobId (ui t) = Some "def456" ∧ status (ui t) = Completed ∧
  displayText (ui t) = "Done! 42 logs processed." ∧
  timers t = ∅ ∧
  drop (length (trace superseded)) (trace t)
  = [ShowText "Done! 42 logs processed."; ClearInterval 2; CallOnComplete 7;
     ClearInterval 2].
Proof. vm_compute. repeat split; done. Qed.

(** A tick of the superseded interval between the commit of the new job's
    state and the run of its effect: the job on display is def456, interval
    1 of job abc123 is still armed, and its tick polls abc123.  The effect
    then clears interval 1 and arms interval 2 for def456. *)
Lemma tick_before_cleanup_polls_retired_job :
  let s := second_upload_rendered in
  jobId (ui (cur s)) = Some "def456" ∧ status (ui (cur s)) = Processing ∧
  awaiting s = Some (Processing, Some "def456", Some 7) ∧
  timers (cur s) = {[ 1%positive := Closure "abc123" (Some 7) ]} ∧
  drop (length (trace (cur s))) (trace (cur (advance (Handler (Tick 1)) s)))
  = [GetJob "abc123"] ∧
  timers (cur (play [Handler (Tick 1); Effects] s))
  = {[ 2%positive := Closure "def456" (Some 7) ]}.
Proof. vm_compute. repeat split; done. Qed.

Lemma deps_cleanup t : deps (effect_cleanup t) = deps t.
Proof.
  unfold effect_cleanup, clearInterval_ref. by destruct (intervalRef t).
Qed.

Lemma deps_body t : deps (effect_body t) = deps t.
Proof.
  unfold effect_body, deps. destruct (status (ui t)) eqn:Hs; rewrite ?Hs;
    try done.
  destruct (truthy (jobId (ui t))); cbn; by rewrite ?Hs.
Qed.

Lemma effect_body_of_deps t : effect_body_of (deps t) t = effect_body t.
Proof.
  unfold effect_body_of, effect_body, deps. by destruct (status (ui t)).
Qed.

(** On a page that shows the current state, the handler reached is the one
    of [handle]. *)
Lemma dispatch_current e t : dispatch (ui t) e t = handle e t.
Proof.
  by destruct e.
Qed.

Lemma dispatch_frame v e t : keeps (dispatch v e t) t.
Proof.
  destruct e as [f|f| |pct|job_id|msg|id|k r|cb];
    try apply (handle_frame _ t); cbn [dispatch].
  - destruct (status v); try apply keeps_refl;
      (destruct f; [apply keeps_select|apply keeps_refl]).
  - destruct (file v) as [f|]; [|apply keeps_refl].
    destruct (status v); try apply keeps_refl. by split.
Qed.

Lemma commit_fresh t v cb :
  commit (Scheduled t v cb None) =
  Scheduled t (ui t) (onComplete t)
            (if decide (deps t = (status v, jobId v, cb)) then None
             else Some (deps t)).
Proof. done. Qed.

(** With nothing in between, a handler, the commit of its render and the
    run of its effect are one [step], and leave the component settled. *)
Lemma fused_step e s :
  settled s →
  cur (play [Handler e; Commit; Effects] s) = step e (cur s) ∧
  settled (play [Handler e; Commit; Effects] s).
Proof.
  destruct s as [t v cb a]. intros (Ha & Hv & Hcb). cbn in Ha, Hv, Hcb.
  subst a v cb.
  unfold play. cbn [foldl advance cur painted painted_cb awaiting].
  rewrite dispatch_current, commit_fresh.
  change (status (ui t), jobId (ui t), onComplete t) with (deps t).
  unfold step, render.
  destruct (decide (deps (handle e t) = deps t)) as [Hdeps|Hdeps].
  - by split.
  - unfold flush, settled. cbn [awaiting cur painted painted_cb].
    assert (E : effect_body_of (deps (handle e t))
                  (effect_cleanup (handle e t))
                = effect_body (effect_cleanup (handle e t))).
    { rewrite <- (deps_cleanup (handle e t)). apply effect_body_of_deps. }
    rewrite E. split; [done|].
    pose proof (deps_body (effect_cleanup (handle e t))) as D.
    rewrite deps_cleanup in D. unfold deps in D.
    assert (U : ui (effect_body (effect_cleanup (handle e t)))
                = ui (handle e t)).
    { unfold effect_body, effect_cleanup, clearInterval_ref.
      destruct (intervalRef (handle e t)); cbn;
        destruct (status (ui (handle e t))); try done;
        by destruct (truthy (jobId (ui (handle e t)))). }
    split_and!; [done|by rewrite U|congruence].
Qed.

Lemma fused_run es : ∀ s,
  settled s →
  cur (play (at_once es) s) = run es (cur s) ∧ settled (play (at_once es) s).
Proof.
  induction es as [|e es IH]; intros s Hs; [done|].
  change (at_once (e :: es)) with ([Handler e; Commit; Effects] ++ at_once es).
  unfold play. rewrite foldl_app.
  destruct (fused_step e s Hs) as [E1 E2].
  destruct (IH _ E2) as [E3 E4]. unfold play in *.
  rewrite E3, E1. by split.
Qed.

Lemma flush_tidy s : tidy s → tidy (flush s).
Proof.
  intros Hs. unfold flush.
  destruct (awaiting s) as [d|] eqn:Hd; [|done].
  destruct Hs as [Ha Hb]. specialize (Hb d Hd). subst d.
  destruct (cleanup_clears (cur s)) as (Ht & _).
  { intros id c Hl. by destruct (Ha id c Hl). }
  split; [|done]. cbn [cur awaiting].
  change (rendered (Scheduled _ (painted s) (painted_cb s) None))
    with (rendered s).
  unfold effect_body_of.
  destruct (rendered s) as [[st jid] cb] eqn:Hr.
  destruct st; try (intros id c; rewrite Ht, lookup_empty; done).
  destruct (truthy jid) as [j|] eqn:Hj;
    [|intros id c; rewrite Ht, lookup_empty; done].
  intros id c. cbn [timers intervalRef]. rewrite Ht, lookup_insert.
  case_decide; [|by rewrite lookup_empty].
  intros [= <-]. subst id. cbn [c_jobId c_onComplete].
  unfold truthy in Hj. destruct jid as [j'|]; [|done].
  case_decide; simplify_eq. done.
Qed.

Lemma flush_awaiting s : awaiting (flush s) = None.
Proof. unfold flush. by destruct (awaiting s) eqn:Hd. Qed.

Lemma advance_tidy m s : tidy s → tidy (advance m s).
Proof.
  intros Hs. destruct m as [e| |]; cbn [advance].
  - destruct Hs as [Ha Hb].
    destruct (dispatch_frame (painted s) e (cur s)) as [Hr Ht].
    split; [|done]. intros id c Hl. cbn [cur awaiting] in *.
    rewrite Hr. by apply Ha, Ht.
  - unfold commit. destruct (flush_tidy s Hs) as [Ha Hb].
    pose proof (flush_awaiting s) as Hn.
    case_decide as Hd; split.
    + intros id c Hl. cbn [cur awaiting] in *.
      destruct (Ha id c Hl) as (? & ? & Hq). split_and!; [done..|].
      intros _. unfold rendered at 1. cbn [painted painted_cb].
      fold (deps (cur (flush s))). rewrite Hd. by apply Hq.
    + done.
    + intros id c Hl. cbn [cur awaiting] in *.
      destruct (Ha id c Hl) as (? & ? & _). by split_and!.
    + by intros d [= <-].
  - by apply flush_tidy.
Qed.

Lemma play_tidy ms s : tidy s → tidy (play ms s).
Proof.
  revert s. induction ms as [|m ms IH]; intros s Hs; [done|].
  cbn [play foldl]. apply IH. by apply advance_tidy.
Qed.

Lemma mounted_tidy cb : tidy (mounted cb).
Proof. split; [|done]. intros id c. cbn. by rewrite lookup_empty. Qed.

(** C7, amended: a new poll loop does not retire the prior one at once.
    The prior interval is cleared by the cleanup of the effect, which React
    runs after it has committed the render of the new state.  Whatever has
    happened since the component was mounted, and whenever React has run
    the effects, an interval that is armed is the one held in
    [intervalRef], so at most one is armed and a tick of any other id does
    nothing; and once the current state is rendered and its effect has run,
    that interval polls the job on display, which is being processed, with
    the current [onComplete]. *)
Theorem superseded_interval_cancelled cb ms id c :
  let s := play ms (mounted cb) in
  timers (cur s) !! id = Some c →
  intervalRef (cur s) = Some id ∧
  trace (tick id (cur s)) = trace (cur s) ++ [GetJob (c_jobId c)] ∧
  (∀ id', id' ≠ id → tick id' (cur s) = cur s) ∧
  (settled s →
   status (ui (cur s)) = Processing ∧
   jobId (ui (cur s)) = Some (c_jobId c) ∧
   onComplete (cur s) = c_onComplete c).
Proof.
  intros s Hl.
  assert (Hs : tidy s) by apply play_tidy, mounted_tidy.
  destruct Hs as [Ha _]. destruct (Ha id c Hl) as (Hr & _ & Hd).
  split_and!; [done| | |].
  - unfold tick. by rewrite Hl.
  - intros id' Hne. unfold tick.
    destruct (timers (cur s) !! id') as [c'|] eqn:Hl'; [|done].
    destruct (Ha id' c' Hl') as (Hr' & _). congruence.
  - intros (Hw & Hv & Hcb). specialize (Hd Hw). unfold rendered in Hd.
    rewrite Hv, Hcb in Hd. by simplify_eq.
Qed.

(** A second upload after a dropped file, every effect run at once:
    interval 1 of job abc123 is gone, interval 2 polls def456. *)
Lemma superseded_interval_cancelled_witness :
  let s := play (at_once [FileSelect (Some "app.log"); ClickUpload;
                          UploadDone (Some "abc123"); Tick 1;
                          Drop (Some "db.log"); ClickUpload;
                          UploadDone (Some "def456")])
                (mounted (Some 7)) in
  settled s ∧
  intervalRef (cur s) = Some 2%positive ∧
  trace (tick 2 (cur s))
  = trace (cur s) ++ [GetJob (c_jobId (Closure "def456" (Some 7)))] ∧
  (∀ id', id' ≠ 2%positive → tick id' (cur s) = cur s) ∧
  status (ui (cur s)) = Processing ∧
  jobId (ui (cur s)) = Some (c_jobId (Closure "def456" (Some 7))) ∧
  onComplete (cur s) = c_onComplete (Closure "def456" (Some 7)).
Proof.
  intros s.
  assert (Hs : settled s) by (split_and!; vm_compute; reflexivity).
  destruct (superseded_interval_cancelled (Some 7)
              (at_once [FileSelect (Some "app.log"); ClickUpload;
                        UploadDone (Some "abc123"); Tick 1;
                        Drop (Some "db.log"); ClickUpload;
                        UploadDone (Some "def456")])
              2%positive (Closure "def456" (Some 7)))
    as (H1 & H2 & H3 & H4).
  { vm_compute. reflexivity. }
  destruct (H4 Hs) as (H5 & H6 & H7).
  split; [exact Hs|]. split; [exact H1|]. split; [exact H2|].
  split; [exact H3|]. split; [exact H5|]. split; [exact H6|exact H7].
Defined.

End LogUploaderFacts.

(** ** The streaming query *)

Section AskAIFacts.
Import AskAI.

Lemma on_token_at sid tok st buf :
  buffers st !! sid = Some buf →
  on_token sid tok st =
  State (query st) (JStr (String.concat "" (buf ++ [tok]))) (isStreaming st)
        (<[sid := buf ++ [tok]]> (buffers st))
        (trace st ++ [SetResponse (JStr (String.concat "" (buf ++ [tok])))]).
Proof. intros H. unfold on_token. by rewrite H. Qed.

(** Feeding tokens to a stream whose buffer holds [buf]: the buffer grows at
    its end, and every token sets the response to the text of the buffer at
    that moment. *)
Lemma feed_from sid ts : ∀ st buf,
  buffers st !! sid = Some buf →
  let st' := feed sid ts st in
  buffers st' !! sid = Some (buf ++ ts) ∧
  query st' = query st ∧ isStreaming st' = isStreaming st ∧
  response st' =
    (match ts with
     | [] => response st
     | _ => JStr (String.concat "" (buf ++ ts))
     end) ∧
  trace st' =
    trace st ++
    map (λ n, SetResponse (JStr (String.concat "" (buf ++ take n ts))))
        (seq 1 (length ts)).
Proof.
  induction ts as [|tok ts IH]; intros st buf Hb; simpl.
  - by rewrite !app_nil_r.
  - assert (Hlt : sid < length (buffers st)) by by eapply lookup_lt_Some.
    rewrite (on_token_at _ _ _ _ Hb).
    edestruct (IH (State (query st) (JStr (String.concat "" (buf ++ [tok])))
                 (isStreaming st) (<[sid := buf ++ [tok]]> (buffers st))
                 (trace st
                  ++ [SetResponse (JStr (String.concat "" (buf ++ [tok])))]))
                 (buf ++ [tok]))
      as (H1 & H2 & H3 & H4 & H5).
    { simpl. by apply list_lookup_insert_eq. }
    unfold feed in *. simpl in *.
    rewrite H1, H2, H3, H4, H5, <- !app_assoc. simpl.
    repeat split; try done.
    + by destruct ts; rewrite ?app_nil_r.
    + f_equal. rewrite take_0. f_equal.
      rewrite <- (seq_shift (length ts) 1), map_map.
      apply map_ext. intros n. simpl. by rewrite <- app_assoc.
Qed.

(** C2: once [handleAsk] has started a stream (the query is not blank),
    every token is appended to that stream's buffer in the order of
    receipt, and every token triggers exactly one [setResponse] whose value
    is the concatenation of all tokens received so far: the buffer ends up
    as the token list, the notifications are the partial texts, one per
    token in order, and the response is the whole text.  For the tokens
    Analy, zing , payment-svc the text on display before the final event is
    Analyzing payment-svc. *)
Theorem tokens_accumulate :
  (∀ st ts,
     blank (query st) = false →
     let sid := length (buffers st) in
     let st' := feed sid ts (handleAsk st) in
     buffers st' !! sid = Some ts ∧
     isStreaming st' = true ∧
     response st' = JStr (String.concat "" ts) ∧
     trace st' =
       trace (handleAsk st) ++ ((λ s, SetResponse (JStr s)) <$> partials ts)) ∧
  response
    (run [ClickAsk; Token 0 "Analy"; Token 0 "zing "; Token 0 "payment-svc"]
         (setQuery "Why is payment-svc failing?" initial))
  = JStr "Analyzing payment-svc".
Proof.
  split; [|done].
  intros st ts Hq sid st'. subst st'.
  destruct (feed_from sid ts (handleAsk st) []) as (H1 & _ & H3 & H4 & H5).
  { unfold handleAsk. rewrite Hq. simpl. subst sid.
    by rewrite lookup_app_r, Nat.sub_diag by done. }
  simpl in *. rewrite H1, H3, H4, H5. repeat split.
  - unfold handleAsk. by rewrite Hq.
  - destruct ts; [|done]. unfold handleAsk. by rewrite Hq.
  - f_equal. unfold partials. generalize (seq 1 (length ts)).
    intros l. induction l as [|n l IH]; simpl; [done|]. by rewrite IH.
Qed.

Lemma tokens_accumulate_witness :
  let st := setQuery "Why is payment-svc failing?" initial in
  let st' := feed 0 ["Analy"; "zing "; "payment-svc"] (handleAsk st) in
  buffers st' !! 0 = Some ["Analy"; "zing "; "payment-svc"] ∧
  isStreaming st' = true ∧
  response st' = JStr "Analyzing payment-svc" ∧
  trace st' =
    trace (handleAsk st) ++
    [SetResponse (JStr "Analy"); SetResponse (JStr "Analyzing ");
     SetResponse (JStr "Analyzing payment-svc")].
Proof.
  apply (proj1 tokens_accumulate
           (setQuery "Why is payment-svc failing?" initial)
           ["Analy"; "zing "; "payment-svc"]).
  reflexivity.
Defined.

(** C3, as stated, fails: the fallback is the payload of the final event,
    not the accumulated token text, which it replaces on display. *)
Lemma fallback_is_payload_not_buffer :
  let st := step (Final 0 (JStr "plain summary")) streaming in
  buffers streaming !! 0 = Some ["Analy"; "zing "] ∧
  response streaming = JStr "Analyzing " ∧
  response st = JStr "plain summary" ∧
  response st ≠ JStr (String.concat "" ["Analy"; "zing "]).
Proof. repeat split; done. Qed.

(** C3, amended: when the final event ends a stream, a payload that arrives
    as structured data (an object or an array) and carries no truthy [error]
    field is shown in its structured form, the text of
    [JSON.stringify(result, null, 2)]; a payload that is neither structured
    nor [null] (a string or a boolean) is shown as the raw payload itself,
    so a non-JSON [plain summary] is shown as that raw text, not as an
    error, in place of whatever token text had accumulated; a payload with a
    truthy [error] field is shown as [Error: ] and that field.  In these
    three cases the callback calls [setResponse] once.  A [null] payload
    makes the callback throw when it reads [result.error]: nothing is
    shown and the token text stays on display.  In all four cases streaming
    is over, and every payload falls under one of them. *)
Theorem final_result_display st :
  (∀ v, is_object v = true →
        (∀ e, error_field v = Some e → truthy_value e = false) →
        on_final v st =
        State (query st) (JStr (JSON_stringify v)) false (buffers st)
              (trace st ++ [SetResponse (JStr (JSON_stringify v))])) ∧
  (∀ v, v ≠ JNull → is_object v = false →
        on_final v st =
        State (query st) v false (buffers st) (trace st ++ [SetResponse v])) ∧
  on_final (JStr "plain summary") st =
    State (query st) (JStr "plain summary") false (buffers st)
          (trace st ++ [SetResponse (JStr "plain summary")]) ∧
  (∀ v e, error_field v = Some e → truthy_value e = true →
        on_final v st =
        State (query st) (JStr ("Error: " +:+ to_string e)) false (buffers st)
              (trace st ++ [SetResponse (JStr ("Error: " +:+ to_string e))])) ∧
  on_final JNull st =
    State (query st) (response st) false (buffers st)
          (trace st ++ [Uncaught "TypeError"]) ∧
  (∀ v, v = JNull ∨
        (∃ e, error_field v = Some e ∧ truthy_value e = true) ∨
        (is_object v = true ∧
         ∀ e, error_field v = Some e → truthy_value e = false) ∨
        (v ≠ JNull ∧ is_object v = false)).
Proof.
  split_and!; [| |done| |done|].
  - intros v Hobj Herr. destruct v as [|b|s|l|ms]; try done; simpl in *.
    destruct (assoc "error" ms) as [e|] eqn:He; [|done].
    by rewrite (Herr e).
  - intros v Hn Hobj. by destruct v.
  - intros v e He Ht. destruct v as [|b|s|l|ms]; try done; simpl in *.
    by rewrite He, Ht.
  - intros v. destruct v as [|b|s|l|ms].
    + by left.
    + do 3 right. by split.
    + do 3 right. by split.
    + do 2 right. left. split; [done|]. intros e He. discriminate He.
    + destruct (error_field (JObj ms)) as [e|] eqn:He.
      * destruct (truthy_value e) eqn:Ht.
        -- right. left. by exists e.
        -- do 2 right. left. split; [done|]. by intros e' [= <-].
      * do 2 right. left. split; [done|]. intros e He'. discriminate He'.
Qed.

(** The structured result of the design's example, after two tokens. *)
Lemma final_result_display_witness :
  on_final db_timeout streaming =
  State (query streaming) (JStr (JSON_stringify db_timeout)) false
        (buffers streaming)
        (trace streaming ++ [SetResponse (JStr (JSON_stringify db_timeout))]).
Proof.
  apply (proj1 (final_result_display streaming) db_timeout).
  - reflexivity.
  - intros e He. vm_compute in He. discriminate He.
Defined.

(** The text of that result: the two members, one per line, indented by two
    spaces. *)
Example db_timeout_text :
  JSON_stringify db_timeout =
  "{" +:+ newline +:+
  "  " +:+ quote "cause" +:+ ": " +:+ quote "DB timeout" +:+ "," +:+ newline +:+
  "  " +:+ quote "confidence" +:+ ": " +:+ quote "HIGH" +:+ newline +:+
  "}".
Proof. reflexivity. Qed.

(** C8, as stated, fails: the component has no cancel operation.  The Clear
    button empties the display while the stream goes on, so the next token
    brings back the whole text of the stream; and a token that arrives after
    the final event replaces the final text. *)
Lemma clear_then_token_shows_stream :
  let cleared := step ClickClear streaming in
  let st := step (Token 0 "payment-svc") cleared in
  let late := run [Final 0 (JStr "plain summary"); Token 0 "!"] streaming in
  response cleared = JStr "" ∧ isStreaming cleared = true ∧
  response st = JStr "Analyzing payment-svc" ∧
  response st ≠ response cleared ∧
  isStreaming late = false ∧ response late = JStr "Analyzing !" ∧
  response late ≠ JStr "plain summary".
Proof. repeat split; done. Qed.

Lemma on_final_buffers v st : buffers (on_final v st) = buffers st.
Proof.
  unfold on_final. destruct v as [|b|s|l|ms]; try done; simpl;
    destruct (assoc "error" ms) as [e|]; [|done]; by destruct (truthy_value e).
Qed.

(** C8, amended: [handleClear] empties the query and the response and
    nothing else: the stream is neither aborted nor marked terminal
    ([isStreaming] and the token buffers are as before), every token that
    arrives afterwards sets the response to the concatenation of all tokens
    of the stream, those received before the clear included, and the final
    event is still delivered.  Nor does the final event close the stream to
    tokens: one that arrives after it sets the response in the same way. *)
Theorem clear_leaves_stream_running st sid buf :
  buffers st !! sid = Some buf →
  let st1 := handleClear st in
  query st1 = "" ∧ response st1 = JStr "" ∧
  isStreaming st1 = isStreaming st ∧ buffers st1 = buffers st ∧
  (∀ tok, response (step (Token sid tok) st1)
          = JStr (String.concat "" (buf ++ [tok]))) ∧
  (∀ v, step (Final sid v) st1 = on_final v st1) ∧
  (∀ v tok, response (step (Token sid tok) (step (Final sid v) st))
            = JStr (String.concat "" (buf ++ [tok]))).
Proof.
  intros Hb st1. subst st1. split_and!; try done.
  - intros tok. simpl. unfold on_token. simpl. by rewrite Hb.
  - intros v. simpl. by rewrite Hb.
  - intros v tok. simpl. rewrite Hb. unfold on_token.
    by rewrite on_final_buffers, Hb.
Qed.

Lemma clear_leaves_stream_running_witness :
  let st1 := handleClear streaming in
  query st1 = "" ∧ response st1 = JStr "" ∧
  isStreaming st1 = isStreaming streaming ∧
  buffers st1 = buffers streaming ∧
  (∀ tok, response (step (Token 0 tok) st1)
          = JStr (String.concat "" (["Analy"; "zing "] ++ [tok]))) ∧
  (∀ v, step (Final 0 v) st1 = on_final v st1) ∧
  (∀ v tok, response (step (Token 0 tok) (step (Final 0 v) streaming))
            = JStr (String.concat "" (["Analy"; "zing "] ++ [tok]))).
Proof.
  apply (clear_leaves_stream_running streaming 0 ["Analy"; "zing "]).
  reflexivity.
Defined.

End AskAIFacts.

(** ** Filters, pages and the background refresh *)

Section AppFacts.
Import App.

(** C4, as stated, fails: the page on display is set by the code that runs
    after [await getLogs], so it is not reset when the fetch of the filter
    change is rejected. *)
Lemma rejected_fetch_keeps_page :
  let s := applyFilter "level" (FStr "ERROR") (LogTable.initial, on_page_3) in
  let st := step (Reply 2 (Rejected "Network Error")) (snd s) in
  page on_page_3 = 3%Z ∧ pending (snd s) !! 2 = Some (ReqLogs 1) ∧
  page st = 3%Z ∧ page st ≠ 1%Z.
Proof. vm_compute. repeat split; done. Qed.

(** C4, amended: a filter change issues exactly one fetch, for page 1, whose
    request holds the full merged filter state: the changed field with its
    new value and every other field of the table's filters with the value it
    had.  The table and the coordinator both store the merged filters.  The
    page on display is untouched until the reply: it becomes 1 when the
    fetch succeeds, and what is on display stays as it was when the fetch is
    rejected. *)
Theorem applyFilter_fetch name value tbl app :
  let newFilters := <[name := value]> (LogTable.filters tbl) in
  let s := applyFilter name value (tbl, app) in
  LogTable.filters (fst s) = newFilters ∧
  filters (snd s) = newFilters ∧
  trace (snd s) = trace app ++ [GetLogs (getLogs_params 1 newFilters)] ∧
  pending (snd s) = pending app ++ [ReqLogs 1] ∧
  displayed (snd s) = displayed app ∧
  getLogs_params 1 newFilters !! name = Some value ∧
  (∀ k, k ≠ name → k ≠ "page" →
        getLogs_params 1 newFilters !! k = LogTable.filters tbl !! k) ∧
  (name ≠ "page" → LogTable.filters tbl !! "page" = None →
        getLogs_params 1 newFilters !! "page" = Some (FNum (inject_Z 1))) ∧
  (∀ r, page (settle (ReqLogs 1) (LogsOk r) (snd s)) = 1%Z) ∧
  (∀ msg, displayed (settle (ReqLogs 1) (Rejected msg) (snd s))
          = displayed app).
Proof.
  intros newFilters s. subst s newFilters. unfold getLogs_params.
  repeat split; try done.
  - apply lookup_union_Some_l, lookup_insert_eq.
  - intros k Hk Hp. rewrite lookup_union_l by by rewrite lookup_singleton_ne.
    by rewrite lookup_insert_ne.
  - intros Hn Hp. rewrite lookup_union_r by by rewrite lookup_insert_ne.
    apply lookup_singleton_eq.
Qed.

(** The example of the design: the service is already payment-svc and the
    threshold 0.5 when the level is set to ERROR; the request holds all
    three, and page 1. *)
Lemma applyFilter_fetch_witness :
  let tbl := fst (applyFilter "service" (FStr "payment-svc")
                              (LogTable.initial, mount)) in
  let params := getLogs_params 1 (<["level" := FStr "ERROR"]>
                                    (LogTable.filters tbl)) in
  params !! "level" = Some (FStr "ERROR") ∧
  params !! "service" = Some (FStr "payment-svc") ∧
  params !! "anomaly_threshold" = Some (FNum (1 # 2)) ∧
  params !! "page" = Some (FNum (inject_Z 1)).
Proof.
  pose proof (applyFilter_fetch "level" (FStr "ERROR")
                (fst (applyFilter "service" (FStr "payment-svc")
                                  (LogTable.initial, mount)))
                mount) as (_ & _ & _ & _ & _ & Hn & Hk & Hp & _).
  split; [exact Hn|]. split; [|split].
  - rewrite (Hk "service"); [reflexivity|discriminate|discriminate].
  - rewrite (Hk "anomaly_threshold"); [reflexivity|discriminate|discriminate].
  - apply Hp; [discriminate|reflexivity].
Defined.

Lemma step_timer e st :
  analyticsIntervalRef (step e st) = analyticsIntervalRef st ∧
  timers (step e st) = timers st ∧
  count is_SetInterval (trace (step e st)) = count is_SetInterval (trace st) ∧
  count is_ClearInterval (trace (step e st))
  = count is_ClearInterval (trace st).
Proof.
  destruct e as [f|p|f|id|k rep]; simpl.
  - rewrite !count_app. simpl. repeat split; lia.
  - rewrite !count_app. simpl. repeat split; lia.
  - rewrite !count_app. simpl. repeat split; lia.
  - case_decide; [|done]. simpl. rewrite !count_app. simpl. repeat split; lia.
  - destruct (pending st !! k) as [req|]; [|done].
    destruct req, rep; simpl; rewrite ?count_app; simpl; repeat split; lia.
Qed.

Lemma run_timer es : ∀ st,
  analyticsIntervalRef (run es st) = analyticsIntervalRef st ∧
  timers (run es st) = timers st ∧
  count is_SetInterval (trace (run es st)) = count is_SetInterval (trace st) ∧
  count is_ClearInterval (trace (run es st))
  = count is_ClearInterval (trace st).
Proof.
  induction es as [|e es IH]; intros st; [done|]. simpl.
  destruct (IH (step e st)) as (-> & -> & -> & ->). apply step_timer.
Qed.

(** C9: the refresh interval is created once, by the mount effect, and by
    nothing that happens afterwards; it stays armed, under the id the mount
    effect stored, whatever happens; it is cleared once, by the cleanup at
    unmount, which leaves no interval armed, so that no tick does anything
    afterwards.  Every tick of the armed interval issues the analytics
    request and the health request and nothing else, and neither the tick
    nor the code that runs when those two requests settle touches the
    filters, the page on display or the log list. *)
Theorem refresh_timer_frame :
  (∀ es,
     let st := run es mount in
     count is_SetInterval (trace st) = 1 ∧
     count is_ClearInterval (trace st) = 0 ∧
     count is_ClearInterval (trace (unmount st)) = 1 ∧
     timers (unmount st) = ∅ ∧
     analyticsIntervalRef st = Some 1%positive ∧
     timers st = {[ 1%positive ]} ∧
     trace (step (Tick 1) st) = trace st ++ [GetAnalytics; FetchHealth] ∧
     pending (step (Tick 1) st) = pending st ++ [ReqAnalytics; ReqHealth] ∧
     ∀ id, step (Tick id) (unmount st) = unmount st) ∧
  (∀ st id,
     let st' := step (Tick id) st in
     filters st' = filters st ∧ displayed st' = displayed st ∧
     (id ∈ timers st →
      trace st' = trace st ++ [GetAnalytics; FetchHealth] ∧
      pending st' = pending st ++ [ReqAnalytics; ReqHealth]) ∧
     (id ∉ timers st → st' = st)) ∧
  (∀ st rep,
     filters (settle ReqAnalytics rep st) = filters st ∧
     displayed (settle ReqAnalytics rep st) = displayed st ∧
     filters (settle ReqHealth rep st) = filters st ∧
     displayed (settle ReqHealth rep st) = displayed st).
Proof.
  assert (Htick : ∀ st id,
     let st' := step (Tick id) st in
     filters st' = filters st ∧ displayed st' = displayed st ∧
     (id ∈ timers st →
      trace st' = trace st ++ [GetAnalytics; FetchHealth] ∧
      pending st' = pending st ++ [ReqAnalytics; ReqHealth]) ∧
     (id ∉ timers st → st' = st)).
  { intros st id st'. subst st'. cbn [step]. case_decide.
    - split_and!; [done|done| |done]. intros _. cbn.
      by rewrite <- !app_assoc.
    - by split_and!. }
  split; [|split; [exact Htick|]].
  - intros es st. destruct (run_timer es mount) as (Hr & Ht & Hs & Hc).
    fold st in Hr, Ht, Hs, Hc.
    assert (Hm : timers mount = {[ 1%positive ]}) by (cbn; set_solver).
    assert (Hu : timers (unmount st) = ∅).
    { unfold unmount. rewrite Hr, Ht, Hm. cbn. set_solver. }
    destruct (Htick st 1%positive) as (_ & _ & Hin & _).
    destruct Hin as [H1 H2]; [rewrite Ht, Hm; set_solver|].
    split_and!.
    + by rewrite Hs.
    + by rewrite Hc.
    + unfold unmount. rewrite Hr. cbn. rewrite count_app, Hc. done.
    + done.
    + by rewrite Hr.
    + by rewrite Ht.
    + done.
    + done.
    + intros id. destruct (Htick (unmount st) id) as (_ & _ & _ & Hout).
      apply Hout. rewrite Hu. set_solver.
  - intros st rep. by destruct rep.
Qed.

Lemma step_displayed e st :
  is_LogsOk e = false → displayed (step e st) = displayed st.
Proof.
  destruct st as [an lg tt pg ps fl hl ir tm nt pd tr].
  destruct e as [f|p|f|id|k rep]; cbn; try done.
  - by case_decide.
  - intros Hrep. destruct (pd !! k) as [[]|]; [destruct rep..|]; done.
Qed.

Lemma run_displayed es : ∀ st,
  Forall (λ e, is_LogsOk e = false) es → displayed (run es st) = displayed st.
Proof.
  induction es as [|e es IH]; intros st Hes; [done|].
  apply Forall_cons in Hes as [He Hes]. cbn [run foldl].
  fold (run es (step e st)). rewrite (IH _ Hes). by apply step_displayed.
Qed.

(** C10: a log fetch that fails changes nothing on display.  Before the
    [await], [fetchLogs] only sends the request: the log list, the total,
    the page and the page count keep their values.  When the request is
    rejected, the code after the [await] only logs the error, and those four
    values, the filters, the analytics, the health flag and the timers are
    as they were just before.  Whatever happens between the two, short of
    another log fetch that succeeds, what is on display once the fetch has
    failed is what was there before it began. *)
Theorem fetchLogs_failure_atomic :
  (∀ st k p msg,
     pending st !! k = Some (ReqLogs p) →
     let st' := step (Reply k (Rejected msg)) st in
     displayed st' = displayed st ∧ filters st' = filters st ∧
     analytics st' = analytics st ∧ health st' = health st ∧
     timers st' = timers st ∧
     trace st' = trace st ++ [ConsoleError msg]) ∧
  (∀ st p f,
     let st1 := fetchLogs p f st in
     displayed st1 = displayed st ∧ filters st1 = filters st ∧
     analytics st1 = analytics st ∧ health st1 = health st ∧
     timers st1 = timers st ∧
     pending st1 = pending st ++ [ReqLogs p] ∧
     trace st1 = trace st ++ [GetLogs (getLogs_params p f)]) ∧
  (∀ st p f es k msg,
     Forall (λ e, is_LogsOk e = false) es →
     let st2 := run es (fetchLogs p f st) in
     pending st2 !! k = Some (ReqLogs p) →
     displayed (step (Reply k (Rejected msg)) st2) = displayed st).
Proof.
  assert (H1 : ∀ st k p msg,
     pending st !! k = Some (ReqLogs p) →
     let st' := step (Reply k (Rejected msg)) st in
     displayed st' = displayed st ∧ filters st' = filters st ∧
     analytics st' = analytics st ∧ health st' = health st ∧
     timers st' = timers st ∧
     trace st' = trace st ++ [ConsoleError msg]).
  { intros st k p msg Hk st'. subst st'. simpl. by rewrite Hk. }
  split_and!; [exact H1|done|].
  intros st p f es k msg Hes st2 Hk.
  destruct (H1 st2 k p msg Hk) as (-> & _).
  subst st2. by rewrite run_displayed.
Qed.

(** The fetch of page 5 is rejected while page 3 is on display, after a
    refresh tick and the reply to its analytics request. *)
Lemma fetchLogs_failure_atomic_witness :
  displayed
    (step (Reply 2 (Rejected "Network Error"))
       (run [Tick 1; Reply 3 (AnalyticsOk "{}")]
            (fetchLogs 5 (filters on_page_3) on_page_3)))
  = displayed on_page_3.
Proof.
  apply (proj2 (proj2 fetchLogs_failure_atomic) on_page_3 5%Z
           (filters on_page_3) [Tick 1; Reply 3 (AnalyticsOk "{}")] 2
           "Network Error").
  - repeat constructor.
  - vm_compute. reflexivity.
Defined.

End AppFacts.


(** * Further properties *)

(** ** The uploader *)

Section LogUploaderMore.
Import LogUploader.

Lemma queued_no_timer t :
  current_only t → status (ui t) ≠ Processing → timers t = ∅.
Proof.
  intros Hc Hs. apply map_eq. intros id. rewrite lookup_empty.
  destruct (timers t !! id) as [c|] eqn:Hl; [|done].
  destruct (Hc id c Hl) as (_ & Hp & _). congruence.
Qed.

Lemma step_change e t :
  deps (handle e t) ≠ deps t →
  step e t = effect_body (effect_cleanup (handle e t)).
Proof. intros H. unfold step, render. by rewrite decide_False. Qed.

Lemma upload_click t f :
  file (ui t) = Some f → status (ui t) = Queued → timers t = ∅ →
  step ClickUpload t =
  Tracker (View (Some f) Uploading 0 None "") (onComplete t) (intervalRef t)
          ∅ (next_timer t) (polls t) (S (uploads t))
          (trace t ++ [ShowText ""; UploadLog f]
           ++ match intervalRef t with
              | Some i => [ClearInterval i]
              | None => []
              end).
Proof.
  destruct t as [[fl s p ji d] oc ir tm nt pl up tr].
  cbn [ui file status timers]. intros -> -> ->.
  rewrite step_change by (unfold deps; cbn; unfold handleUpload; cbn; congruence).
  cbn [handle ui file status]. unfold handleUpload. cbn.
  unfold effect_cleanup, clearInterval_ref.
  destruct ir as [i|]; cbn; unfold emit; cbn;
    rewrite ?delete_empty, <- ?app_assoc; done.
Qed.

Lemma upload_done t f job_id :
  status (ui t) ≠ Processing → file (ui t) = Some f → timers t = ∅ →
  uploads t ≠ 0 →
  step (UploadDone job_id) t =
  match truthy job_id with
  | Some j =>
      Tracker (View (Some f) Processing (progress (ui t)) job_id
                    "Processing...")
              (onComplete t) (Some (next_timer t))
              {[ next_timer t := Closure j (onComplete t) ]}
              (Pos.succ (next_timer t)) (polls t) (pred (uploads t))
              (trace t ++ [ShowText "Processing..."]
               ++ match intervalRef t with
                  | Some i => [ClearInterval i]
                  | None => []
                  end ++ [SetInterval (next_timer t) POLL_MS])
  | None =>
      Tracker (View (Some f) Processing (progress (ui t)) job_id
                    "Processing...")
              (onComplete t) (intervalRef t) ∅ (next_timer t) (polls t)
              (pred (uploads t))
              (trace t ++ [ShowText "Processing..."]
               ++ match intervalRef t with
                  | Some i => [ClearInterval i]
                  | None => []
                  end)
  end.
Proof.
  destruct t as [[fl s p ji d] oc ir tm nt pl up tr].
  cbn [ui file status timers uploads]. intros Hs -> -> Hup.
  destruct up as [|up]; [done|].
  rewrite step_change by (unfold deps; cbn; congruence).
  cbn [handle ui file status uploads]. unfold upload_resolved. cbn.
  unfold effect_cleanup, clearInterval_ref, effect_body.
  destruct ir as [i|]; cbn; rewrite ?delete_empty;
    destruct (truthy job_id) as [j|]; cbn; unfold emit; cbn;
    rewrite ?insert_empty, <- ?app_assoc; done.
Qed.

Lemma run_app es1 es2 t : run (es1 ++ es2) t = run es2 (run es1 t).
Proof. apply foldl_app. Qed.

(** The progress callback while the upload is awaited: only the progress
    changes, to the percentage reported last. *)
Lemma upload_progresses pcts : ∀ fl s p ji d oc ir tm nt pl up tr,
  run (UploadProgress <$> pcts)
      (Tracker (View fl s p ji d) oc ir tm nt pl (S up) tr)
  = Tracker (View fl s (default p (last pcts)) ji d) oc ir tm nt pl (S up) tr.
Proof.
  induction pcts as [|pct pcts IH]; intros; [done|].
  change (run (UploadProgress <$> pct :: pcts) ?t)
    with (run (UploadProgress <$> pcts) (step (UploadProgress pct) t)).
  rewrite step_keep by done. cbn [handle uploads].
  unfold upload_progress, with_ui, setProgress. cbn.
  rewrite IH, last_cons. by destruct (last pcts).
Qed.

(** X1: from any reachable state with a file selected and the status Queued,
    clicking Upload and receiving a non-empty job id, with any progress
    reports in between, leaves the tracker Processing that job with the
    text Processing... and the progress reported last (0 when there was no
    report: handleUpload resets it and nothing after the [await] does),
    arms exactly one interval, whose callback captures that job id and the
    current onComplete, shows the empty text and then Processing...,
    invokes no callback, and has sent the file. *)
Theorem upload_starts_polling cb es f j pcts :
  let t := run es (mount cb) in
  file (ui t) = Some f → status (ui t) = Queued → j ≠ "" →
  let t' := run ([ClickUpload] ++ (UploadProgress <$> pcts)
                 ++ [UploadDone (Some j)]) t in
  status (ui t') = Processing ∧ jobId (ui t') = Some j ∧
  displayText (ui t') = "Processing..." ∧
  progress (ui t') = default 0%N (last pcts) ∧
  intervalRef t' = Some (next_timer t) ∧
  timers t' = {[ next_timer t := Closure j (onComplete t) ]} ∧
  shown (added t t') = [""; "Processing..."] ∧
  completions (added t t') = [] ∧
  UploadLog f ∈ added t t'.
Proof.
  intros t Hf Hs Hj t'.
  assert (Hc : current_only t) by apply run_current, mount_current.
  assert (Ht : timers t = ∅) by (apply queued_no_timer; [done|by rewrite Hs]).
  subst t'. rewrite !run_app.
  change (run [ClickUpload] t) with (step ClickUpload t).
  change (run [UploadDone (Some j)] ?x) with (step (UploadDone (Some j)) x).
  rewrite (upload_click t f Hf Hs Ht), upload_progresses.
  rewrite (upload_done _ f (Some j)) by done.
  unfold truthy. rewrite decide_False by done.
  cbn [ui status jobId displayText progress intervalRef timers].
  unfold added. cbn [trace]. rewrite <- !app_assoc, drop_app_length.
  repeat split; try done.
  - by destruct (intervalRef t).
  - by destruct (intervalRef t).
  - set_solver.
Qed.

Lemma upload_starts_polling_witness :
  let t := run [FileSelect (Some "app.log")] (mount (Some 7)) in
  let t' := run ([ClickUpload] ++ (UploadProgress <$> [40%N; 100%N])
                 ++ [UploadDone (Some "abc123")]) t in
  status (ui t') = Processing ∧ jobId (ui t') = Some "abc123" ∧
  displayText (ui t') = "Processing..." ∧
  progress (ui t') = default 0%N (last [40%N; 100%N]) ∧
  intervalRef t' = Some (next_timer t) ∧
  timers t' = {[ next_timer t := Closure "abc123" (onComplete t) ]} ∧
  shown (added t t') = [""; "Processing..."] ∧
  completions (added t t') = [] ∧
  UploadLog "app.log" ∈ added t t'.
Proof.
  apply (upload_starts_polling (Some 7) [FileSelect (Some "app.log")]
           "app.log" "abc123" [40%N; 100%N]).
  - vm_compute. reflexivity.
  - vm_compute. reflexivity.
  - discriminate.
Defined.

Lemma upload_fail t f msg :
  status (ui t) = Uploading → file (ui t) = Some f → timers t = ∅ →
  uploads t ≠ 0 →
  step (UploadFail msg) t =
  Tracker (View (Some f) Failed (progress (ui t)) (jobId (ui t))
                ("Upload failed: " +:+ msg))
          (onComplete t) (intervalRef t) ∅ (next_timer t) (polls t)
          (pred (uploads t))
          (trace t ++ [ShowText ("Upload failed: " +:+ msg)]
           ++ match intervalRef t with
              | Some i => [ClearInterval i]
              | None => []
              end).
Proof.
  destruct t as [[fl s p ji d] oc ir tm nt pl up tr].
  cbn [ui file status timers uploads]. intros -> -> -> Hup.
  destruct up as [|up]; [done|].
  rewrite step_change by (unfold deps; cbn; congruence).
  cbn [handle ui file status uploads]. unfold upload_rejected.
  cbn -[String.append].
  unfold effect_cleanup, clearInterval_ref, effect_body.
  destruct ir as [i|]; cbn -[String.append]; unfold emit; cbn -[String.append];
    rewrite ?delete_empty, <- ?app_assoc; done.
Qed.

(** An event that the JSX disables in the current status. *)
Lemma step_disabled e t : handle e t = t → step e t = t.
Proof. intros H. rewrite step_keep; by rewrite H. Qed.

Lemma step_stalled e t :
  stalled t → is_file_drop e = false →
  stalled (step e t) ∧ ui (step e t) = ui t.
Proof.
  destruct t as [[fl s p ji d] oc ir tm nt pl up tr].
  unfold stalled. cbn [ui status jobId timers polls uploads].
  intros (-> & Hj & -> & -> & ->) He.
  destruct e as [f|[f|]| |pct|job_id|msg|id|k r|cb]; try done;
    try (rewrite step_disabled by (cbn; by destruct fl); by split_and!).
  unfold step, render. cbn [handle]. unfold set_onComplete.
  case_decide; [by split_and!|].
  unfold effect_cleanup, clearInterval_ref, effect_body.
  destruct ir as [i|]; cbn; rewrite Hj, ?delete_empty; by split_and!.
Qed.

Lemma run_stalled es : ∀ t,
  stalled t → Forall (λ e, is_file_drop e = false) es →
  stalled (run es t) ∧ ui (run es t) = ui t.
Proof.
  induction es as [|e es IH]; intros t Ht Hes; [done|].
  apply Forall_cons in Hes as [He Hes].
  destruct (step_stalled e t Ht He) as [H1 H2].
  destruct (IH _ H1 Hes) as [H3 H4].
  change (run (e :: es) t) with (run es (step e t)).
  split; [done|congruence].
Qed.

(** X2: when the upload resolves without a usable job id (missing or empty),
    handleUpload still sets the status to Processing, but the effect arms no
    interval: no tick polls, and the file input and the Upload button are
    disabled.  When no poll request and no other upload is awaited, nothing
    but a dropped file changes the view from then on: whatever events
    follow, the status stays Processing and no interval is armed.  (A poll
    request of an earlier job that is still awaited can end this state, as
    it can end any other.) *)
Theorem upload_without_job_id_stalls cb es f job_id es' :
  let t := run es (mount cb) in
  file (ui t) = Some f → status (ui t) = Queued → truthy job_id = None →
  polls t = [] → uploads t = 0 →
  Forall (λ e, is_file_drop e = false) es' →
  let t1 := run [ClickUpload; UploadDone job_id] t in
  let t' := run es' t1 in
  status (ui t1) = Processing ∧ displayText (ui t1) = "Processing..." ∧
  timers t1 = ∅ ∧
  (∀ id, step (Tick id) t1 = t1) ∧
  (∀ f', step (FileSelect f') t1 = t1) ∧
  step ClickUpload t1 = t1 ∧
  ui t' = ui t1 ∧ timers t' = ∅ ∧
  (∀ id, step (Tick id) t' = t').
Proof.
  intros t Hf Hs Hj Hp Hu Hes t1 t'.
  assert (Hc : current_only t) by apply run_current, mount_current.
  assert (Ht : timers t = ∅) by (apply queued_no_timer; [done|by rewrite Hs]).
  assert (E : t1 =
    Tracker (View (Some f) Processing 0 job_id "Processing...")
            (onComplete t) (intervalRef t) ∅ (next_timer t) [] 0
            (trace t ++ [ShowText ""; UploadLog f]
             ++ match intervalRef t with
                | Some i => [ClearInterval i]
                | None => []
                end
             ++ [ShowText "Processing..."]
             ++ match intervalRef t with
                | Some i => [ClearInterval i]
                | None => []
                end)).
  { subst t1. change (run [ClickUpload; UploadDone job_id] t)
      with (step (UploadDone job_id) (step ClickUpload t)).
    rewrite (upload_click t f Hf Hs Ht).
    rewrite (upload_done _ f job_id) by done. rewrite Hj, Hp, Hu.
    cbn. by rewrite <- !app_assoc. }
  assert (St : stalled t1) by (rewrite E; by split_and!).
  destruct (run_stalled es' t1 St Hes) as [(_ & _ & Ht' & _) Hui].
  fold t' in Ht', Hui. rewrite E in *.
  split_and!; try done.
  - intros id. by apply idle_Tick.
  - intros f'. by apply step_disabled.
  - by apply step_disabled.
  - intros id. by apply idle_Tick.
Qed.

Lemma upload_without_job_id_stalls_witness :
  let t := run [FileSelect (Some "app.log")] (mount (Some 7)) in
  let t1 := run [ClickUpload; UploadDone (Some "")] t in
  let t' := run [Tick 1; Rerender (Some 8); ClickUpload;
                 FileSelect (Some "db.log");
                 PollReply 0 (PollOk (Job "completed" None None))] t1 in
  status (ui t1) = Processing ∧ displayText (ui t1) = "Processing..." ∧
  timers t1 = ∅ ∧
  (∀ id, step (Tick id) t1 = t1) ∧
  (∀ f', step (FileSelect f') t1 = t1) ∧
  step ClickUpload t1 = t1 ∧
  ui t' = ui t1 ∧ timers t' = ∅ ∧
  (∀ id, step (Tick id) t' = t').
Proof.
  apply (upload_without_job_id_stalls (Some 7) [FileSelect (Some "app.log")]
           "app.log" (Some "")
           [Tick 1; Rerender (Some 8); ClickUpload;
            FileSelect (Some "db.log");
            PollReply 0 (PollOk (Job "completed" None None))]).
  - vm_compute. reflexivity.
  - vm_compute. reflexivity.
  - vm_compute. reflexivity.
  - vm_compute. reflexivity.
  - vm_compute. reflexivity.
  - repeat constructor.
Defined.

(** X3: a rejected upload shows Upload failed: followed by the error
    message, sets the status to Failed, keeps the selected file and arms no
    interval; the Upload button stays disabled until a file is chosen again,
    which sets the status back to Queued. *)
Theorem upload_failure_shown cb es f msg :
  let t := run es (mount cb) in
  file (ui t) = Some f → status (ui t) = Queued →
  let t' := run [ClickUpload; UploadFail msg] t in
  status (ui t') = Failed ∧
  displayText (ui t') = "Upload failed: " +:+ msg ∧
  file (ui t') = Some f ∧ timers t' = ∅ ∧
  step ClickUpload t' = t' ∧
  ∀ f', status (ui (step (FileSelect (Some f')) t')) = Queued.
Proof.
  intros t Hf Hs t'.
  assert (Hc : current_only t) by apply run_current, mount_current.
  assert (Ht : timers t = ∅) by (apply queued_no_timer; [done|by rewrite Hs]).
  subst t'. change (run [ClickUpload; UploadFail msg] t)
    with (step (UploadFail msg) (step ClickUpload t)).
  rewrite (upload_click t f Hf Hs Ht).
  rewrite (upload_fail _ f msg) by done.
  split_and!; try done.
  - by apply step_disabled.
  - intros f'. rewrite step_change by (unfold deps; cbn; congruence).
    cbn [handle ui status]. unfold handleFileSelect, effect_cleanup.
    cbn -[String.append]. unfold clearInterval_ref.
    by destruct (intervalRef t).
Qed.

Lemma upload_failure_shown_witness :
  let t := run [FileSelect (Some "app.log")] (mount (Some 7)) in
  let t' := run [ClickUpload; UploadFail "Network Error"] t in
  status (ui t') = Failed ∧
  displayText (ui t') = "Upload failed: " +:+ "Network Error" ∧
  file (ui t') = Some "app.log" ∧ timers t' = ∅ ∧
  step ClickUpload t' = t' ∧
  ∀ f', status (ui (step (FileSelect (Some f')) t')) = Queued.
Proof.
  apply (upload_failure_shown (Some 7) [FileSelect (Some "app.log")]
           "app.log" "Network Error").
  - vm_compute. reflexivity.
  - vm_compute. reflexivity.
Defined.

(** X4: while a job is being polled the file input is disabled, but the drop
    zone is not: a dropped file resets the view to Queued with no job id and
    an empty text and cancels the interval, so no later tick polls; the
    requests already awaited are kept. *)
Theorem drop_cancels_polling j t f :
  in_flight j t →
  let t' := step (Drop (Some f)) t in
  ui t' = View (Some f) Queued 0 None "" ∧
  timers t' = ∅ ∧ polls t' = polls t ∧
  (∀ id, step (Tick id) t' = t') ∧
  (∀ f', step (FileSelect f') t = t).
Proof.
  destruct t as [[fl s p ji d] oc ir tm nt pl up tr].
  unfold in_flight; cbn [ui status jobId onComplete intervalRef timers polls].
  intros (-> & -> & Hj & (id & cb & -> & -> & ->) & Hpl).
  match goal with |- context [step (Drop (Some f)) ?t] =>
    assert (E : step (Drop (Some f)) t =
                Tracker (View (Some f) Queued 0 None "") (Some cb) (Some id)
                  ∅ nt pl up (tr ++ [ShowText ""; ClearInterval id])) end.
  { rewrite step_change by (unfold deps; cbn; congruence).
    cbn. unfold effect_cleanup, clearInterval_ref. cbn.
    by rewrite delete_singleton_eq, <- app_assoc. }
  rewrite E. split_and!; try done.
  - intros id'. by apply idle_Tick.
  - intros f'. by apply step_disabled.
Qed.

Lemma drop_cancels_polling_witness :
  let t' := step (Drop (Some "db.log")) started in
  ui t' = View (Some "db.log") Queued 0 None "" ∧
  timers t' = ∅ ∧ polls t' = polls started ∧
  (∀ id, step (Tick id) t' = t') ∧
  (∀ f', step (FileSelect f') started = started).
Proof.
  apply (drop_cancels_polling "abc123" started "db.log").
  unfold in_flight. split_and!.
  - vm_compute. reflexivity.
  - vm_compute. reflexivity.
  - discriminate.
  - exists 1%positive, 7. split_and!; vm_compute; reflexivity.
  - vm_compute. constructor.
Defined.

(** X5: unmounting after any run leaves no interval armed; the cleanup
    calls clearInterval at most once, on the id held in intervalRef. *)
Theorem unmount_leaves_no_interval cb es :
  let t := run es (mount cb) in
  timers (unmount t) = ∅ ∧
  (trace (unmount t) = trace t ∨
   ∃ i, intervalRef t = Some i ∧ trace (unmount t) = trace t ++ [ClearInterval i]).
Proof.
  intros t.
  assert (Hc : current_only t) by apply run_current, mount_current.
  split.
  - apply cleanup_clears. intros id c Hl. by destruct (Hc id c Hl).
  - unfold unmount, effect_cleanup, clearInterval_ref.
    destruct (intervalRef t) as [i|]; [right; by exists i|by left].
Qed.

(** A re-render adds neither a message nor a callback invocation. *)
Lemma render_quiet old t :
  ∃ new, trace (render old t) = trace t ++ new ∧
         shown new = [] ∧ completions new = [].
Proof.
  unfold render. case_decide.
  { exists []. by rewrite app_nil_r. }
  unfold effect_cleanup, clearInterval_ref, effect_body.
  destruct t as [[fl s p ji d] oc ir tm nt pl up tr].
  destruct ir as [i|]; cbn; destruct s; cbn;
    try (by exists [ClearInterval i]);
    try (exists []; by rewrite app_nil_r);
    destruct (truthy ji) as [j|]; cbn;
    try (by exists [ClearInterval i]);
    try (exists []; by rewrite app_nil_r).
  - exists [ClearInterval i; SetInterval nt POLL_MS]. by rewrite <- app_assoc.
  - by exists [SetInterval nt POLL_MS].
Qed.

(** X6: the continuation of a poll that reads completed invokes the
    onComplete captured by its closure when the interval was created (once,
    or not at all when that prop was absent), whatever the parent passes
    now. *)
Theorem completion_uses_captured_callback t k c pc err :
  polls t !! k = Some c →
  let t' := step (PollReply k (PollOk (Job "completed" pc err))) t in
  completions (added t t') =
    match c_onComplete c with Some cb => [cb] | None => [] end.
Proof.
  intros Hk t'. subst t'. unfold step.
  destruct (render_quiet (deps t)
              (handle (PollReply k (PollOk (Job "completed" pc err))) t))
    as (new & E & _ & C).
  cbn [handle] in *. unfold poll_reply in *. rewrite Hk in *.
  unfold added. rewrite E. cbn [on_reply job_status].
  rewrite decide_True by done.
  unfold call_onComplete, clearInterval_ref.
  destruct (c_onComplete c) as [cb|], (intervalRef t) as [i|];
    cbn -[done_text]; unfold emit, completions in *; cbn -[done_text];
    rewrite <- ?app_assoc, drop_app_length, ?omap_app, C; done.
Qed.

Lemma completion_uses_captured_callback_witness :
  let t := run [Tick 1; Rerender (Some 8)] started in
  let t' := step (PollReply 0 (PollOk (Job "completed" (Some 42%N) None))) t in
  completions (added t t') =
    match c_onComplete (Closure "abc123" (Some 7)) with
    | Some cb => [cb]
    | None => []
    end.
Proof.
  apply (completion_uses_captured_callback
           (run [Tick 1; Rerender (Some 8)] started) 0
           (Closure "abc123" (Some 7)) (Some 42%N) None).
  vm_compute. reflexivity.
Defined.

(** X7: a poll reply whose status is neither completed nor failed changes
    nothing but the list of awaited requests: view, interval and log are
    as before. *)
Theorem nonterminal_reply_ignored t k jb :
  terminal (PollOk jb) = false →
  step (PollReply k (PollOk jb)) t =
  Tracker (ui t) (onComplete t) (intervalRef t) (timers t) (next_timer t)
          (delete k (polls t)) (uploads t) (trace t).
Proof.
  intros [H1 H2]%not_terminal.
  destruct (polls t !! k) as [c|] eqn:Hk.
  - rewrite step_keep; cbn [handle]; unfold poll_reply; rewrite Hk;
      cbn [on_reply]; by rewrite !decide_False.
  - rewrite step_disabled by (cbn [handle]; unfold poll_reply; by rewrite Hk).
    apply lookup_ge_None in Hk.
    rewrite delete_take_drop, take_ge, drop_ge by lia.
    rewrite app_nil_r. by destruct t.
Qed.

Lemma nonterminal_reply_ignored_witness :
  step (PollReply 0 (PollOk (Job "processing" (Some 10%N) None)))
       (step (Tick 1) started) =
  Tracker (ui (step (Tick 1) started)) (onComplete (step (Tick 1) started))
          (intervalRef (step (Tick 1) started)) (timers (step (Tick 1) started))
          (next_timer (step (Tick 1) started))
          (delete 0 (polls (step (Tick 1) started)))
          (uploads (step (Tick 1) started)) (trace (step (Tick 1) started)).
Proof.
  apply (nonterminal_reply_ignored (step (Tick 1) started) 0
           (Job "processing" (Some 10%N) None)).
  vm_compute. reflexivity.
Defined.

(** X8: an upload is not cancelled by a dropped file.  When a file is
    dropped while the upload of another is awaited, the reply of that
    upload still sets the status to Processing and starts polling its job,
    while the file on display is the dropped one. *)
Theorem upload_outlives_drop cb es f f2 j :
  let t := run es (mount cb) in
  file (ui t) = Some f → status (ui t) = Queued → j ≠ "" →
  let t' := run [ClickUpload; Drop (Some f2); UploadDone (Some j)] t in
  file (ui t') = Some f2 ∧ status (ui t') = Processing ∧
  jobId (ui t') = Some j ∧
  timers t' = {[ next_timer t := Closure j (onComplete t) ]} ∧
  uploads t' = uploads t.
Proof.
  intros t Hf Hs Hj t'.
  assert (Hc : current_only t) by apply run_current, mount_current.
  assert (Ht : timers t = ∅) by (apply queued_no_timer; [done|by rewrite Hs]).
  subst t'. change (run [ClickUpload; Drop (Some f2); UploadDone (Some j)] t)
    with (step (UploadDone (Some j))
            (step (Drop (Some f2)) (step ClickUpload t))).
  rewrite (upload_click t f Hf Hs Ht).
  rewrite (step_change (Drop (Some f2)))
    by (unfold deps; cbn; congruence).
  cbn [handle]. unfold handleDrop, effect_cleanup. cbn.
  unfold clearInterval_ref.
  destruct (intervalRef t) as [i|]; cbn; rewrite ?delete_empty;
    rewrite (upload_done _ f2 (Some j)) by done;
    unfold truthy; rewrite decide_False by done; done.
Qed.

Lemma upload_outlives_drop_witness :
  let t := run [FileSelect (Some "app.log")] (mount (Some 7)) in
  let t' := run [ClickUpload; Drop (Some "db.log"); UploadDone (Some "abc123")]
                t in
  file (ui t') = Some "db.log" ∧ status (ui t') = Processing ∧
  jobId (ui t') = Some "abc123" ∧
  timers t' = {[ next_timer t := Closure "abc123" (onComplete t) ]} ∧
  uploads t' = uploads t.
Proof.
  apply (upload_outlives_drop (Some 7) [FileSelect (Some "app.log")]
           "app.log" "db.log" "abc123").
  - vm_compute. reflexivity.
  - vm_compute. reflexivity.
  - discriminate.
Defined.

(** X9: onComplete is a dependency of the polling effect: when the parent
    renders with a different callback while a job is polled, the interval
    is cleared and a new one is created whose callback captures the new
    onComplete; the view and the requests already awaited are
    unchanged.  A render with the same callback changes nothing. *)
Theorem rerender_rearms j t cb' :
  in_flight j t → onComplete t ≠ cb' →
  let t' := step (Rerender cb') t in
  ui t' = ui t ∧ polls t' = polls t ∧ onComplete t' = cb' ∧
  intervalRef t' = Some (next_timer t) ∧
  timers t' = {[ next_timer t := Closure j cb' ]} ∧
  (∃ id, intervalRef t = Some id ∧
         trace t' = trace t ++ [ClearInterval id;
                                SetInterval (next_timer t) POLL_MS]) ∧
  step (Rerender (onComplete t)) t = t.
Proof.
  destruct t as [[fl s p ji d] oc ir tm nt pl up tr].
  unfold in_flight; cbn [ui status jobId onComplete intervalRef timers polls].
  intros (-> & -> & Hj & (id & cb & -> & -> & ->) & Hpl) Hcb.
  cbn [next_timer trace].
  rewrite (step_change (Rerender cb')) by (unfold deps; cbn; congruence).
  cbn [handle]. unfold set_onComplete, effect_cleanup, clearInterval_ref. cbn.
  rewrite delete_singleton_eq. unfold effect_body, truthy. cbn.
  rewrite decide_False by done. cbn. rewrite insert_empty, <- app_assoc.
  split_and!; try done.
  - by exists id.
  - by apply step_disabled.
Qed.

Lemma rerender_rearms_witness :
  let t' := step (Rerender (Some 8)) started in
  ui t' = ui started ∧ polls t' = polls started ∧ onComplete t' = Some 8 ∧
  intervalRef t' = Some (next_timer started) ∧
  timers t' = {[ next_timer started := Closure "abc123" (Some 8) ]} ∧
  (∃ id, intervalRef started = Some id ∧
         trace t' = trace started ++ [ClearInterval id;
                                      SetInterval (next_timer started) POLL_MS]) ∧
  step (Rerender (onComplete started)) started = started.
Proof.
  apply (rerender_rearms "abc123" started (Some 8)).
  - unfold in_flight. split_and!.
    + vm_compute. reflexivity.
    + vm_compute. reflexivity.
    + discriminate.
    + exists 1%positive, 7. split_and!; vm_compute; reflexivity.
    + vm_compute. constructor.
  - vm_compute. discriminate.
Defined.

End LogUploaderMore.

(** ** The question box *)

Section AskAIMore.
Import AskAI.

Lemma step_well_asked e st :
  Forall well_asked (trace st) → Forall well_asked (trace (step e st)).
Proof.
  intros H. destruct e as [q| | |sid tok|sid v]; cbn [step].
  - by destruct (isStreaming st).
  - destruct (isStreaming st); [done|]. unfold handleAsk.
    destruct (blank (query st)) eqn:Hb; [done|]. cbn.
    rewrite !Forall_app. split_and!; [done|by repeat constructor|].
    by repeat constructor.
  - cbn. rewrite Forall_app. split; [done|by repeat constructor].
  - unfold on_token. destruct (buffers st !! sid); [|done]. cbn.
    rewrite Forall_app. split; [done|by repeat constructor].
  - destruct (buffers st !! sid); [|done]. unfold on_final.
    repeat case_match; cbn;
      (rewrite Forall_app; split; [done|by repeat constructor]).
Qed.

(** X10: whatever the user types or clicks and whatever the streams deliver,
    every request the component sends carries a query that is not blank
    and an empty list of log ids. *)
Theorem requests_well_formed es :
  Forall well_asked (trace (run es initial)).
Proof.
  unfold run. induction es as [|e es IH] using rev_ind.
  - constructor.
  - rewrite foldl_snoc. by apply step_well_asked.
Qed.

Lemma step_locked e st :
  isStreaming st = true → is_Final e = false →
  isStreaming (step e st) = true ∧
  length (buffers (step e st)) = length (buffers st) ∧
  filter is_AskRequest (trace (step e st)) = filter is_AskRequest (trace st) ∧
  (query (step e st) = query st ∨ query (step e st) = "").
Proof.
  intros Hs He. destruct e as [q| | |sid tok|sid v]; cbn [step]; [..|done].
  - rewrite Hs. auto.
  - rewrite Hs. auto.
  - cbn. rewrite filter_app, app_nil_r. auto.
  - unfold on_token. destruct (buffers st !! sid); [|auto]. cbn.
    rewrite filter_app, app_nil_r, length_insert. auto.
Qed.

(** X11: while a stream is running and no final event has arrived, the
    component stays locked: isStreaming remains true, no second request is
    sent and no second token buffer is created, whatever is typed or
    clicked; the query can only be emptied by Clear. *)
Theorem streaming_lock st es :
  isStreaming st = true → Forall (λ e, is_Final e = false) es →
  let st' := run es st in
  isStreaming st' = true ∧
  length (buffers st') = length (buffers st) ∧
  filter is_AskRequest (trace st') = filter is_AskRequest (trace st) ∧
  (query st' = query st ∨ query st' = "").
Proof.
  intros Hs Hes. cbn zeta. unfold run.
  induction es as [|e es IH] using rev_ind; [auto|].
  apply Forall_app in Hes as [Hes He]. apply Forall_inv in He.
  destruct (IH Hes) as (I1 & I2 & I3 & I4). rewrite foldl_snoc.
  destruct (step_locked e _ I1 He) as (J1 & J2 & J3 & J4).
  split_and!; [done|congruence|congruence|].
  destruct J4 as [J4|J4]; [|by right]. rewrite J4. done.
Qed.

Lemma streaming_lock_witness :
  let st' := run [Type_ "another question"; ClickAsk; Token 0 "payment-svc";
                  ClickClear; ClickAsk] streaming in
  isStreaming st' = true ∧
  length (buffers st') = length (buffers streaming) ∧
  filter is_AskRequest (trace st') = filter is_AskRequest (trace streaming) ∧
  (query st' = query streaming ∨ query st' = "").
Proof.
  apply (streaming_lock streaming
           [Type_ "another question"; ClickAsk; Token 0 "payment-svc";
            ClickClear; ClickAsk]).
  - reflexivity.
  - repeat constructor.
Defined.

Lemma step_buffer e st sid buf :
  buffers st !! sid = Some buf →
  buffers (step e st) !! sid = Some (buf ++ tokens_of sid [e]).
Proof.
  intros Hb. unfold tokens_of. destruct e as [q| | |s tok|s v]; cbn.
  - rewrite app_nil_r. by destruct (isStreaming st).
  - rewrite app_nil_r. destruct (isStreaming st); [done|]. unfold handleAsk.
    destruct (blank (query st)); [done|]. cbn.
    by apply lookup_app_l_Some.
  - by rewrite app_nil_r.
  - unfold on_token. destruct (decide (s = sid)) as [->|Hs].
    + rewrite Hb. cbn.
      apply list_lookup_insert_eq. by eapply lookup_lt_Some.
    + rewrite app_nil_r. destruct (buffers st !! s); [|done]. cbn.
      by rewrite list_lookup_insert_ne.
  - rewrite app_nil_r. destruct (buffers st !! s); [|done]. unfold on_final.
    repeat case_match; done.
Qed.

(** X12: the token buffers of different calls of handleAsk never mix: after
    any events, the buffer of a stream is what it was followed by exactly
    the tokens delivered to that stream, in order; and a token of that
    stream puts the concatenation of that buffer on display, also when a
    later question has been asked in between. *)
Theorem streams_isolated st es sid buf :
  buffers st !! sid = Some buf →
  buffers (run es st) !! sid = Some (buf ++ tokens_of sid es) ∧
  ∀ tok, response (step (Token sid tok) (run es st))
         = JStr (String.concat "" (buf ++ tokens_of sid es ++ [tok])).
Proof.
  intros Hb.
  assert (H : buffers (run es st) !! sid = Some (buf ++ tokens_of sid es)).
  { unfold run. induction es as [|e es IH] using rev_ind.
    - by rewrite app_nil_r.
    - rewrite foldl_snoc. unfold tokens_of. rewrite omap_app, app_assoc.
      by apply step_buffer. }
  split; [done|]. intros tok. cbn [step]. unfold on_token. rewrite H. cbn.
  by rewrite <- app_assoc.
Qed.

Lemma streams_isolated_witness :
  let es := [Final 0 (JStr "done"); Type_ "And the database?"; ClickAsk;
             Token 1 "Checking"; Token 0 " payment-svc"; Token 1 " db"] in
  buffers (run es streaming) !! 0
  = Some (["Analy"; "zing "] ++ tokens_of 0 es) ∧
  ∀ tok, response (step (Token 0 tok) (run es streaming))
         = JStr (String.concat "" (["Analy"; "zing "] ++ tokens_of 0 es ++ [tok])).
Proof.
  apply (streams_isolated streaming
           [Final 0 (JStr "done"); Type_ "And the database?"; ClickAsk;
            Token 1 "Checking"; Token 0 " payment-svc"; Token 1 " db"]
           0 ["Analy"; "zing "]).
  reflexivity.
Defined.

End AskAIMore.

(** ** The coordinator *)

Section AppMore.
Import App.

Lemma step_filters e st :
  filters (step e st) =
  match e with FilterChange f => f | _ => filters st end.
Proof.
  destruct st as [an lg tt pg ps fl hl ir tm nt pd tr].
  destruct e as [f|p|f|id|k rep]; cbn; try done.
  - by case_decide.
  - destruct (pd !! k) as [[]|]; [destruct rep..|]; done.
Qed.

(** X13: the coordinator's filters are those of the last filter change, or
    the ones it started with when there was none: no page change, upload
    completion, refresh tick or reply, accepted or rejected, touches
    them. *)
Theorem filters_follow_last_change es st :
  filters (run es st) = default (filters st) (last_filters es).
Proof.
  unfold run, last_filters. induction es as [|e es IH] using rev_ind; [done|].
  rewrite !foldl_snoc, step_filters. by destruct e.
Qed.

Lemma step_analytics e st :
  analytics (step e st) = analytics st ∨
  ∃ k d, e = Reply k (AnalyticsOk d) ∧ analytics (step e st) = d.
Proof.
  destruct st as [an lg tt pg ps fl hl ir tm nt pd tr].
  destruct e as [f|p|f|id|k rep]; cbn; try (by left).
  - left. by case_decide.
  - destruct (pd !! k) as [[]|]; [destruct rep..|]; cbn; try (by left).
    right. by eexists _, _.
Qed.

(** X14: the analytics on display are either the ones the state began with
    or the payload of some accepted analytics reply among the events: a
    rejected refresh never blanks them, and nothing else writes them. *)
Theorem analytics_provenance es st :
  analytics (run es st) = analytics st ∨
  ∃ k d, Reply k (AnalyticsOk d) ∈ es ∧ analytics (run es st) = d.
Proof.
  unfold run. induction es as [|e es IH] using rev_ind; [by left|].
  rewrite foldl_snoc.
  destruct (step_analytics e (foldl (λ acc e, step e acc) st es))
    as [E|(k & d & -> & E)].
  - rewrite E. destruct IH as [IH|(k & d & Hin & IH)]; [by left|].
    right. exists k, d. split; [apply elem_of_app; by left|done].
  - right. exists k, d. split; [apply elem_of_app; right; by apply list_elem_of_singleton|done].
Qed.

Lemma step_health e st :
  health (step e st) = health st ∨
  (∃ k ok, e = Reply k (HealthOk ok) ∧ health (step e st) = ok) ∨
  (∃ k msg, e = Reply k (Rejected msg) ∧ health (step e st) = false).
Proof.
  destruct st as [an lg tt pg ps fl hl ir tm nt pd tr].
  destruct e as [f|p|f|id|k rep]; cbn; try (by left).
  - left. by case_decide.
  - destruct (pd !! k) as [[]|]; [destruct rep..|]; cbn; try (by left).
    + right. left. by eexists _, _.
    + right. right. by eexists _, _.
Qed.

(** X15: the health flag is the one the state began with, the outcome of
    some accepted health reply among the events, or false after some
    rejected request. *)
Theorem health_provenance es st :
  health (run es st) = health st ∨
  (∃ k ok, Reply k (HealthOk ok) ∈ es ∧ health (run es st) = ok) ∨
  (∃ k msg, Reply k (Rejected msg) ∈ es ∧ health (run es st) = false).
Proof.
  unfold run. induction es as [|e es IH] using rev_ind; [by left|].
  rewrite foldl_snoc.
  destruct (step_health e (foldl (λ acc e, step e acc) st es))
    as [E|[(k & ok & -> & E)|(k & msg & -> & E)]].
  - rewrite E. destruct IH as [IH|[(k & ok & Hin & IH)|(k & msg & Hin & IH)]].
    + by left.
    + right. left. exists k, ok. split; [apply elem_of_app; by left|done].
    + right. right. exists k, msg. split; [apply elem_of_app; by left|done].
  - right. left. exists k, ok. split; [apply elem_of_app; right; by apply list_elem_of_singleton|done].
  - right. right. exists k, msg. split; [apply elem_of_app; right; by apply list_elem_of_singleton|done].
Qed.

(** X16: the two requests of a refresh fail differently: a rejected
    analytics request is logged and leaves the analytics as they were; a
    rejected health request is not logged and sets the flag to false.
    Neither changes anything else on display. *)
Theorem refresh_failures st k msg :
  (pending st !! k = Some ReqAnalytics →
   let st' := step (Reply k (Rejected msg)) st in
   analytics st' = analytics st ∧ health st' = health st ∧
   displayed st' = displayed st ∧
   trace st' = trace st ++ [ConsoleError msg]) ∧
  (pending st !! k = Some ReqHealth →
   let st' := step (Reply k (Rejected msg)) st in
   health st' = false ∧ analytics st' = analytics st ∧
   displayed st' = displayed st ∧ trace st' = trace st).
Proof.
  destruct st as [an lg tt pg ps fl hl ir tm nt pd tr].
  split; cbn; intros ->; done.
Qed.

Lemma refresh_failures_witness :
  (let st' := step (Reply 0 (Rejected "Network Error")) mount in
   analytics st' = analytics mount ∧ health st' = health mount ∧
   displayed st' = displayed mount ∧
   trace st' = trace mount ++ [ConsoleError "Network Error"]) ∧
  (let st' := step (Reply 2 (Rejected "Network Error")) mount in
   health st' = false ∧ analytics st' = analytics mount ∧
   displayed st' = displayed mount ∧ trace st' = trace mount).
Proof.
  split.
  - apply (proj1 (refresh_failures mount 0 "Network Error")). reflexivity.
  - apply (proj2 (refresh_failures mount 2 "Network Error")). reflexivity.
Defined.

Lemma lookup_snoc_length {A} (l : list A) x : (l ++ [x]) !! length l = Some x.
Proof. by induction l. Qed.

Lemma delete_snoc_length {A} (l : list A) x : delete (length l) (l ++ [x]) = l.
Proof. induction l; [done|]. cbn. by f_equal. Qed.

(** X17: log fetches are not sequenced.  After two filter changes, when
    the reply to the second request arrives before the reply to the first,
    the list, the total and the page count on display are those of the
    first request, while the filters are those of the second change. *)
Theorem stale_logs_reply_wins st f1 f2 r1 r2 :
  let n := length (pending st) in
  let st' := run [FilterChange f1; FilterChange f2;
                  Reply (S n) (LogsOk r2); Reply n (LogsOk r1)] st in
  filters st' = f2 ∧
  displayed st' = (default [] (r_logs r1), or_num (r_total r1) 0, 1%Z,
                   or_num (r_pages r1) 1) ∧
  pending st' = pending st ∧
  trace st' = trace st ++ [GetLogs (getLogs_params 1 f1);
                           GetLogs (getLogs_params 1 f2)].
Proof.
  destruct st as [an lg tt pg ps fl hl ir tm nt pd tr]. cbn.
  replace (S (length pd)) with (length (pd ++ [ReqLogs 1]))
    by (rewrite length_app; cbn; lia).
  rewrite lookup_snoc_length. cbn.
  rewrite delete_snoc_length, lookup_snoc_length. cbn.
  by rewrite delete_snoc_length, <- app_assoc.
Qed.

End AppMore.

(** ** The logs tab *)

Section LogsTabMore.
Import LogsTab.

(** X18: a sequence of filter changes in the table sends one request per
    change, each for page 1 and each with the filters merged so far; the
    table and the coordinator end with the same, fully merged, filters, and
    what is on display is untouched until a reply arrives. *)
Theorem filter_changes_fetch cs s :
  let s' := run (uncurry ChangeFilter <$> cs) s in
  let ms := App.merges (LogTable.filters s.1) cs in
  LogTable.filters s'.1 = default (LogTable.filters s.1) (last ms) ∧
  App.filters s'.2 = default (App.filters s.2) (last ms) ∧
  App.trace s'.2
  = App.trace s.2 ++ ((λ m, App.GetLogs (App.getLogs_params 1 m)) <$> ms) ∧
  App.pending s'.2
  = App.pending s.2 ++ replicate (length cs) (App.ReqLogs 1) ∧
  App.displayed s'.2 = App.displayed s.2.
Proof.
  cbn zeta. revert s. induction cs as [|[name value] cs IH]; intros s.
  - cbn. by rewrite !app_nil_r.
  - change (run (uncurry ChangeFilter <$> (name, value) :: cs) s)
      with (run (uncurry ChangeFilter <$> cs) (step (ChangeFilter name value) s)).
    destruct (IH (step (ChangeFilter name value) s)) as (I1 & I2 & I3 & I4 & I5).
    rewrite I1, I2, I3, I4, I5. clear IH I1 I2 I3 I4 I5.
    destruct s as [[tf] [an lg tt pg ps fl hl ir tm nt pd tr]].
    cbn -[last]. rewrite <- !app_assoc, last_cons. cbn -[last].
    split_and!; try done;
      by destruct (last (App.merges (<[name:=value]> tf) cs)).
Qed.

Lemma or_num_nonzero o d : d ≠ 0%N → App.or_num o d ≠ 0%N.
Proof. intros Hd. unfold App.or_num. destruct o; [case_decide|]; done. Qed.

Lemma step_pages_sane e s : pages_sane s.2 → pages_sane (step e s).2.
Proof.
  destruct s as [tbl [an lg tt pg ps fl hl ir tm nt pd tr]].
  unfold pages_sane. cbn. intros (Hp & Hps & Hpd).
  destruct e as [name value| | |f|id|k rep]; cbn.
  - split_and!; [done..|]. apply Forall_app. split; [done|].
    repeat constructor. lia.
  - unfold previous_disabled. case_bool_decide; cbn; [done|].
    split_and!; [done..|]. apply Forall_app. split; [done|].
    repeat constructor. lia.
  - unfold next_disabled. case_bool_decide; cbn; [done|].
    split_and!; [done..|]. apply Forall_app. split; [done|].
    repeat constructor. lia.
  - split_and!; [done..|]. rewrite <- app_assoc. apply Forall_app.
    split; [done|]. repeat constructor. lia.
  - case_decide; cbn; [|done].
    split_and!; [done..|]. rewrite <- app_assoc. apply Forall_app.
    split; [done|]. by repeat constructor.
  - destruct (pd !! k) as [req|] eqn:Hk; [|done].
    pose proof (Forall_delete _ _ k Hpd) as Hd.
    pose proof (Forall_lookup_1 _ _ _ _ Hpd Hk) as Hr.
    destruct req, rep; cbn; try done.
    split_and!; [done| |done]. by apply or_num_nonzero.
Qed.

Lemma getLogs_params_page p m :
  no_page m → App.getLogs_params p m !! "page" = Some (FNum (inject_Z p)).
Proof.
  intros Hm. unfold App.getLogs_params.
  rewrite lookup_union_r by done. apply lookup_singleton_eq.
Qed.

Lemma fetch_page_ok p m :
  no_page m → (1 ≤ p)%Z → page_ok (App.GetLogs (App.getLogs_params p m)).
Proof. intros Hm Hp. exists p. by rewrite getLogs_params_page. Qed.

Lemma input_name_not_page i : input_name i ≠ "page".
Proof. by destruct i. Qed.

(** What a step of the tab sends, given filters without a [page]. *)
Lemma step_trace_ok e s :
  pages_sane s.2 → Forall page_ok (App.trace s.2) →
  no_page (App.filters s.2) → no_page (LogTable.filters s.1) →
  match e with
  | ChangeFilter name _ => name ≠ "page"
  | UploadCompleted f => no_page f
  | _ => True
  end →
  Forall page_ok (App.trace (step e s).2) ∧
  no_page (App.filters (step e s).2) ∧
  no_page (LogTable.filters (step e s).1).
Proof.
  destruct s as [[tf] [an lg tt pg ps fl hl ir tm nt pd tr]].
  unfold pages_sane. cbn. intros (Hp & _ & _) Htr Hfl Htf.
  destruct e as [name value| | |f|id|k rep]; cbn -[App.getLogs_params].
  - intros Hn.
    assert (Hm : no_page (<[name:=value]> tf))
      by (unfold no_page; by rewrite lookup_insert_ne).
    split_and!; [|done..]. apply Forall_app. split; [done|].
    repeat constructor. by apply fetch_page_ok.
  - intros _. unfold previous_disabled.
    case_bool_decide; cbn -[App.getLogs_params]; [done|].
    split_and!; [|done..]. apply Forall_app. split; [done|].
    repeat constructor. apply fetch_page_ok; [done|lia].
  - intros _. unfold next_disabled.
    case_bool_decide; cbn -[App.getLogs_params]; [done|].
    split_and!; [|done..]. apply Forall_app. split; [done|].
    repeat constructor. apply fetch_page_ok; [done|lia].
  - intros Hf. split_and!; [|done..]. rewrite <- app_assoc.
    apply Forall_app. split; [done|].
    repeat constructor. by apply fetch_page_ok.
  - intros _. case_decide; cbn; [|done].
    split_and!; [|done..]. rewrite <- app_assoc. apply Forall_app.
    split; [done|]. by repeat constructor.
  - intros _. destruct (pd !! k) as [req|] eqn:Hk; [|done].
    destruct req, rep; cbn; try done;
      (split_and!; [|done..]); apply Forall_app; (split; [done|]);
      by repeat constructor.
Qed.

Lemma act_sound a s : sound s → sound (act a s).
Proof.
  intros (Hps & Htr & Htf & Hfl & Hre).
  assert (Step : ∀ e,
    match e with
    | ChangeFilter name _ => name ≠ "page"
    | UploadCompleted f => no_page f
    | _ => True
    end →
    sound (rendered (step e (table s, app s)) (renders s))).
  { intros e He.
    destruct (step_trace_ok e (table s, app s)) as (H1 & H2 & H3);
      [done..|].
    unfold sound, rendered. cbn [table app renders].
    split_and!; [by apply (step_pages_sane e (table s, app s))|done..|].
    by constructor. }
  destruct a as [i| | |age|id|k rep|]; cbn [act].
  - apply Step, input_name_not_page.
  - by apply Step.
  - by apply Step.
  - destruct (renders s !! age) as [f|] eqn:Hf; [|by split_and!].
    apply Step. by apply (Forall_lookup_1 _ _ _ _ Hre Hf).
  - by apply Step.
  - by apply Step.
  - unfold sound, rendered. cbn [table app renders fst snd].
    split_and!; [done..|]. by constructor.
Qed.

(** X19: on the logs tab the page on display is never below 1, the page
    count on display is never 0, and every request for logs that is sent
    carries a [page] that is 1 or more, whatever is typed, clicked or
    reopened and whatever the backend replies: Previous is disabled on page
    1, a missing or zero page count is shown as 1, and none of the table's
    four inputs is named [page], so no filter overrides the page asked
    for. *)
Theorem pages_stay_sane l :
  let s := perform l opened in
  pages_sane (app s) ∧ Forall page_ok (App.trace (app s)).
Proof.
  assert (H : sound (perform l opened)).
  { unfold perform. induction l as [|a l IH] using rev_ind.
    - unfold sound, pages_sane. cbn.
      split_and!; [lia|done|by repeat constructor| |done|done|by constructor].
      repeat constructor. by exists 1%Z.
    - rewrite foldl_snoc. by apply act_sound. }
  destruct H as (H1 & H2 & _). by split.
Qed.

Lemma act_filters a s :
  (LogTable.filters (table (act a s)) =
     match a with
     | Edit i =>
         <[input_name i := input_value i]> (LogTable.filters (table s))
     | Reopen => LogTable.filters LogTable.initial
     | _ => LogTable.filters (table s)
     end) ∧
  (App.filters (app (act a s)) =
     match a with
     | Edit i =>
         <[input_name i := input_value i]> (LogTable.filters (table s))
     | _ => App.filters (app s)
     end).
Proof.
  destruct s as [[tf] st re].
  destruct a as [i| | |age|id|k rep|]; cbn [act table app renders].
  - by destruct st.
  - unfold step. cbn [snd fst]. by destruct (previous_disabled _), st.
  - unfold step. cbn [snd fst]. by destruct (next_disabled _ _), st.
  - destruct (re !! age); [|done]. unfold rendered. cbn [table app snd fst step].
    by rewrite step_filters.
  - unfold rendered. cbn [table app snd fst step]. by rewrite step_filters.
  - unfold rendered. cbn [table app snd fst step]. by rewrite step_filters.
  - done.
Qed.

(** X20: the table's filters and the coordinator's are two copies that only
    a filter edit brings together.  The coordinator's are the empty object
    until the first edit; from an edit until the tab is next reopened the
    two are equal; reopening the tab gives the table its default filters
    again, while the coordinator keeps the filters of the last edit, which
    the table no longer shows. *)
Theorem filters_agree l :
  let s := perform l opened in
  (if edited_since_opened l
   then App.filters (app s) = LogTable.filters (table s)
   else LogTable.filters (table s) = LogTable.filters LogTable.initial) ∧
  (if existsb is_Edit l then True else App.filters (app s) = ∅) ∧
  (∀ i, let s' := perform [Edit i; Reopen] s in
        App.filters (app s') !! input_name i = Some (input_value i) ∧
        LogTable.filters (table s') = LogTable.filters LogTable.initial ∧
        App.trace (app (act Next s')) =
          App.trace (app s') ++
          (if next_disabled (App.page (app s')) (App.pages (app s')) then []
           else [App.GetLogs (App.getLogs_params (App.page (app s') + 1)
                                                 (App.filters (app s')))])).
Proof.
  cbn zeta. split_and!.
  - unfold perform, edited_since_opened.
    induction l as [|a l IH] using rev_ind; [done|].
    rewrite !foldl_snoc.
    destruct (act_filters a (foldl (λ acc a, act a acc) opened l))
      as [E1 E2].
    rewrite E1, E2. by destruct a.
  - unfold perform. induction l as [|a l IH] using rev_ind; [done|].
    rewrite foldl_snoc, existsb_app. cbn [existsb]. rewrite orb_false_r.
    destruct (act_filters a (foldl (λ acc a, act a acc) opened l))
      as [_ E2].
    rewrite E2. destruct (existsb is_Edit l), a; done.
  - intros i. set (s := perform l opened).
    cbn [perform foldl].
    destruct (act_filters (Edit i) s) as [_ E2].
    destruct (act_filters Reopen (act (Edit i) s)) as [E3 E4].
    split_and!.
    + by rewrite E4, E2, lookup_insert_eq.
    + done.
    + generalize (act Reopen (act (Edit i) s)). intros [tb st re].
      cbn [act table app renders rendered step snd fst].
      destruct (next_disabled _ _); cbn [snd app]; [by rewrite app_nil_r|].
      by destruct st.
Qed.

End LogsTabMore.
